(** * matrix-shellbot: the output buffer, the relay loop and the input router

    A shallow embedding of [main.py] (Python 3, as its first line says) and
    the properties of its specification that can be settled on it.

    Python values are modelled as follows: a [bytes] object is a list of
    bytes, a [str] is a list of Unicode code points, an [int] is a [Z], a
    [dict] with string keys is a [gmap string _], a tuple or list is a
    [list]. *)

From Stdlib Require Import ZArith NArith List Ascii String Strings.Byte Lia.
From stdpp Require Import base list gmap strings.

Local Open Scope Z_scope.

(** ** Python primitives *)

Abbreviation bytes := (list byte).
Abbreviation text := (list N).

#[global] Instance byte_eq_decision : EqDecision byte := Byte.byte_eq_dec.

(** The code points of an ASCII literal. *)
Definition str (s : string) : text :=
  map N_of_ascii (list_ascii_of_string s).

(** [len(s)] *)
Definition len {A} (s : list A) : Z := Z.of_nat (length s).

(** [sum(len(s) for s in buf)] *)
Definition total_len (buf : list bytes) : Z :=
  foldr (fun s acc => len s + acc) 0 buf.

(** [b''.join(chunks)] *)
Definition join (chunks : list bytes) : bytes := concat chunks.

Definition newline : byte := x0a.

(** [s.rfind(b)] for a one-byte needle: the highest index holding [b], or
    [-1]. *)
Fixpoint rfind (s : bytes) (b : byte) : Z :=
  match s with
  | [] => -1
  | c :: s' =>
      let r := rfind s' b in
      if 0 <=? r then 1 + r
      else if Byte.eqb c b then 0 else -1
  end.

(** The slices [s[:i]] and [s[i:]] for an index [0 <= i]. *)
Definition slice_to (s : bytes) (i : Z) : bytes := take (Z.to_nat i) s.
Definition slice_from (s : bytes) (i : Z) : bytes := drop (Z.to_nat i) s.

(** A Python object as far as [==] between a read result and a literal is
    concerned: [bytes] and [str] are different types. *)
Inductive pyobj :=
| PyBytes (b : bytes)
| PyStr (s : text).

(** [a == b]: objects of the two types never compare equal. *)
Definition py_eq (a b : pyobj) : bool :=
  match a, b with
  | PyBytes x, PyBytes y => bool_decide (x = y)
  | PyStr x, PyStr y => bool_decide (x = y)
  | _, _ => false
  end.

(** ** The incremental decoder interface

    [stdout_to_messages] only calls [incremental_decoder.decode(data)], which
    is [decode(data, final=False)].  [D] is the decoder's internal state. *)
Class IncrementalDecoder (D : Type) :=
  decode : D -> bytes -> bool -> text * D.

(** ** stdout_to_messages *)

Definition MAX_STDOUT_PER_MSG : Z := 1024 * 16.

(** The [while] loop of [stdout_to_messages]: pops chunks off the front of
    [buf] while the first one still fits.  Returns [stdout_to_send] and what
    is left of [buf]. *)
Fixpoint grab_chunks (buf stdout_to_send : list bytes) (bytes_to_send : Z)
  : list bytes * list bytes :=
  match buf with
  | [] => (stdout_to_send, [])
  | s :: buf' =>
      if len s + bytes_to_send <=? MAX_STDOUT_PER_MSG
      then grab_chunks buf' (stdout_to_send ++ [s]) (bytes_to_send + len s)
      else (stdout_to_send, buf)
  end.

(** The byte strings [stdout_to_messages] hands to the decoder, in order, and
    the buffer it leaves behind. *)
Definition blocks_to_send (buf : list bytes) (flush : bool)
  : list bytes * list bytes :=
  if flush then ([join buf], [])
  else if MAX_STDOUT_PER_MSG <? total_len buf then
    let '(stdout_to_send, buf') := grab_chunks buf [] 0 in
    let total_stdout := join stdout_to_send in
    let last_newline := rfind total_stdout newline in
    if negb (last_newline =? -1)
    then ([slice_to total_stdout last_newline],
          buf' ++ [slice_from total_stdout (last_newline + 1)])
    else ([total_stdout], buf')
  else ([], buf).

(** Decoding the blocks one after the other with the one decoder object. *)
Fixpoint decode_blocks `{IncrementalDecoder D} (d : D) (blocks : list bytes)
  : list text * D :=
  match blocks with
  | [] => ([], d)
  | b :: bs =>
      let '(t, d') := decode d b false in
      let '(ts, d'') := decode_blocks d' bs in
      (t :: ts, d'')
  end.

(** [stdout_to_messages(buf, incremental_decoder, flush)]: the returned list
    of strings, the mutated [buf] and the decoder after the call. *)
Definition stdout_to_messages `{IncrementalDecoder D}
    (buf : list bytes) (d : D) (flush : bool)
  : list text * list bytes * D :=
  let '(blocks, buf') := blocks_to_send buf flush in
  let '(msgs, d') := decode_blocks d blocks in
  (msgs, buf', d').

(** ** The UTF-8 incremental decoder

    [codecs.getincrementaldecoder('utf8')(errors='replace')] is CPython's
    buffered incremental decoder around [codecs.utf_8_decode].  The decoder
    is library code; it is modelled here after CPython's [utf8_decode] so
    that the relay can be run on concrete input. *)
Module Utf8.

Local Open Scope N_scope.

Inductive step_result :=
| Char (c : N) (n : nat)      (* a code point read from [n] bytes *)
| Invalid (n : nat)           (* an ill-formed run of [n] bytes *)
| Incomplete.                 (* the data ends inside a sequence *)

Definition replacement : N := 0xFFFD.

Definition is_continuation (b : N) : bool := (0x80 <=? b) && (b <? 0xC0).

(** The second byte is wrong for the lead byte [ch] of a three-byte
    sequence (overlong forms and surrogates included). *)
Definition bad_second3 (ch ch2 : N) : bool :=
  negb (is_continuation ch2)
  || (if ch2 <? 0xA0 then ch =? 0xE0 else ch =? 0xED).

(** The same for a four-byte sequence (overlong, beyond U+10FFFF). *)
Definition bad_second4 (ch ch2 : N) : bool :=
  negb (is_continuation ch2)
  || (if ch2 <? 0x90 then ch =? 0xF0 else ch =? 0xF4).

(** One character from the front of the data, given as byte values. *)
Definition classify (s : list N) : step_result :=
  match s with
  | [] => Incomplete
  | ch :: t =>
      if ch <? 0x80 then Char ch 1
      else if ch <? 0xE0 then
        if ch <? 0xC2 then Invalid 1
        else match t with
             | [] => Incomplete
             | ch2 :: _ =>
                 if negb (is_continuation ch2) then Invalid 1
                 else Char (N.shiftl ch 6 + ch2
                            - (N.shiftl 0xC0 6 + 0x80)) 2
             end
      else if ch <? 0xF0 then
        match t with
        | [] => Incomplete
        | [ch2] => if bad_second3 ch ch2 then Invalid 1 else Incomplete
        | ch2 :: ch3 :: _ =>
            if bad_second3 ch ch2 then Invalid 1
            else if negb (is_continuation ch3) then Invalid 2
            else Char (N.shiftl ch 12 + N.shiftl ch2 6 + ch3
                       - (N.shiftl 0xE0 12 + N.shiftl 0x80 6 + 0x80)) 3
        end
      else if ch <? 0xF5 then
        match t with
        | [] => Incomplete
        | [ch2] => if bad_second4 ch ch2 then Invalid 1 else Incomplete
        | [ch2; ch3] =>
            if bad_second4 ch ch2 then Invalid 1
            else if negb (is_continuation ch3) then Invalid 2
            else Incomplete
        | ch2 :: ch3 :: ch4 :: _ =>
            if bad_second4 ch ch2 then Invalid 1
            else if negb (is_continuation ch3) then Invalid 2
            else if negb (is_continuation ch4) then Invalid 3
            else Char (N.shiftl ch 18 + N.shiftl ch2 12
                       + N.shiftl ch3 6 + ch4
                       - (N.shiftl 0xF0 18 + N.shiftl 0x80 12
                          + N.shiftl 0x80 6 + 0x80)) 4
        end
      else Invalid 1
  end.

(** A truncated surrogate [ED A0..BF] at the very end of non-final data is
    kept back instead of being reported. *)
Definition truncated_surrogate (s : list N) : bool :=
  match s with
  | [ch; ch2] => (ch =? 0xED) && (0xA0 <=? ch2) && (ch2 <=? 0xBF)
  | _ => false
  end.

(** What the decoder does at the front of [s] with [errors='replace']:
    [Some (c, n)] emits [c] and moves on by [n] bytes, [None] stops and
    leaves [s] unconsumed. *)
Definition advance (final : bool) (s : list N) : option (N * nat) :=
  match classify s with
  | Char c n => Some (c, n)
  | Invalid n =>
      if negb final && truncated_surrogate s then None
      else Some (replacement, n)
  | Incomplete =>
      if final then Some (replacement, length s) else None
  end.

(** The decoding loop: the decoded text and the bytes left unconsumed.
    [skip] counts the bytes of the current character that are still to be
    passed over. *)
Fixpoint scan (final : bool) (skip : nat) (s : list N) : text * list N :=
  match s with
  | [] => ([], [])
  | _ :: s' =>
      match skip with
      | S k => scan final k s'
      | O =>
          match advance final s with
          | None => ([], s)
          | Some (c, n) =>
              let '(t, rest) := scan final (Nat.pred n) s' in
              (c :: t, rest)
          end
      end
  end.

(** [codecs.utf_8_decode(data, 'replace', final)]: the decoded text and
    the number of bytes consumed. *)
Definition utf_8_decode (data : bytes) (final : bool) : text * nat :=
  let '(t, rest) := scan final 0 (map Byte.to_N data) in
  (t, (length data - length rest)%nat).

End Utf8.

(** [BufferedIncrementalDecoder.decode]: the state is the [buffer] of bytes
    not decoded yet. *)
#[global] Instance utf8_decoder : IncrementalDecoder bytes :=
  fun buffer input final =>
    let data := buffer ++ input in
    let '(result, consumed) := Utf8.utf_8_decode data final in
    (result, drop consumed data).

(** ** Regular expressions

    The fragment of Python's [re] that the four patterns of [main.py] use,
    with the backtracking semantics of the [re] module: alternatives are
    tried left to right, [*] and [?] are greedy. *)

(** The character tables behind [\d] and [\w] outside ASCII: the Unicode
    database is not part of the program. *)
Class UnicodeData := {
  uni_isdecimal : N -> bool;
  uni_isalnum : N -> bool
}.

Module Re.

Local Open Scope N_scope.

Inductive charclass :=
| Lit (c : N)                       (* a literal character *)
| Dot                               (* [.]: anything but a newline *)
| Digit                             (* [\d] *)
| Word                              (* [\w] *)
| Or (a b : charclass)              (* [[ab]] *)
| Not (a : charclass).              (* [[^a]] *)

Inductive regex :=
| Chr (cc : charclass)
| Eps
| Seq (r1 r2 : regex)
| Alt (r1 r2 : regex)
| Opt (r : regex)            (* [r?] *)
| Star (cc : charclass)      (* [cc*], the repeated item being one character *)
| Group (r : regex).         (* [(r)] *)

Definition is_upper (c : N) : bool := (65 <=? c) && (c <=? 90).
Definition is_lower (c : N) : bool := (97 <=? c) && (c <=? 122).
Definition ascii_lower (c : N) : N := if is_upper c then c + 32 else c.

(** The characters that an ASCII literal [p] matches under
    [re.IGNORECASE] in a [str] pattern: those whose lower case is the lower
    case of [p], and the extra Unicode letters paired with [i], [k] and
    [s] (dotted and dotless i, the Kelvin sign, the long s). *)
Definition lit_matches_icase (p c : N) : bool :=
  let lo := ascii_lower p in
  (ascii_lower c =? lo)
  || ((lo =? 105) && ((c =? 0x130) || (c =? 0x131)))
  || ((lo =? 107) && (c =? 0x212A))
  || ((lo =? 115) && (c =? 0x17F)).

Definition ascii_digit (c : N) : bool := (48 <=? c) && (c <=? 57).
Definition ascii_word (c : N) : bool :=
  ascii_digit c || is_upper c || is_lower c || (c =? 95).

Section Matching.
Context `{UnicodeData}.
Variable icase : bool.     (* [flags=re.I] *)

Fixpoint class_matches (cc : charclass) (c : N) : bool :=
  match cc with
  | Lit p => if icase then lit_matches_icase p c else c =? p
  | Dot => negb (c =? 10)
  | Digit => if c <? 128 then ascii_digit c else uni_isdecimal c
  | Word => if c <? 128 then ascii_word c else uni_isalnum c
  | Or a b => class_matches a c || class_matches b c
  | Not a => negb (class_matches a c)
  end.

Section Engine.
Context {R : Type}.

(** [p*] followed by the continuation [k]: the longest run first. *)
Fixpoint star_match (p : N -> bool) (s : text)
    (k : text -> option R) : option R :=
  match s with
  | c :: s' =>
      if p c then
        match star_match p s' k with
        | Some r => Some r
        | None => k s
        end
      else k s
  | [] => k []
  end.

(** [r] at the front of [s], then [k] on what follows; [caps] are the
    groups closed so far. *)
Fixpoint run (r : regex) (s : text) (caps : list text)
    (k : text -> list text -> option R) : option R :=
  match r with
  | Chr cc =>
      match s with
      | c :: s' => if class_matches cc c then k s' caps else None
      | [] => None
      end
  | Eps => k s caps
  | Seq r1 r2 => run r1 s caps (fun s' caps' => run r2 s' caps' k)
  | Alt r1 r2 =>
      match run r1 s caps k with
      | Some x => Some x
      | None => run r2 s caps k
      end
  | Opt r1 =>
      match run r1 s caps k with
      | Some x => Some x
      | None => k s caps
      end
  | Star cc => star_match (class_matches cc) s (fun s' => k s' caps)
  | Group r1 =>
      run r1 s caps (fun s' caps' =>
        k s' (caps' ++ [take (length s - length s') s]))
  end.
End Engine.

(** [re.match(r, s)]: [None], or the groups and the text after the
    match. *)
Definition re_match (r : regex) (s : text) : option (list text * text) :=
  run r s [] (fun rest caps => Some (caps, rest)).

(** [re.sub(r, '', s)]: scanning left to right, every match is dropped
    and the scan resumes behind it.  [skip] counts the characters of the
    current match still to be dropped. *)
Fixpoint sub_scan (r : regex) (skip : nat) (s : text) : text :=
  match s with
  | [] => []
  | c :: s' =>
      match skip with
      | S n => sub_scan r n s'
      | O =>
          match re_match r s with
          | Some (_, rest) =>
              match (length s - length rest)%nat with
              | S n => sub_scan r n s'
              | O => c :: sub_scan r 0 s'
              end
          | None => c :: sub_scan r 0 s'
          end
      end
  end.

Definition re_sub_empty (r : regex) (s : text) : text := sub_scan r 0 s.

End Matching.

(** [m.group(i)] for [1 <= i]. *)
Definition group (m : list text * text) (i : nat) : text :=
  default [] (m.1 !! Nat.pred i).

(** A pattern that is a plain string. *)
Definition literal (s : string) : regex :=
  foldr (fun c r => Seq (Chr (Lit c)) r) Eps (str s).

End Re.

(** ** The patterns of [main.py] *)

Import Re.

Definition ESC : N := 27.

(** [SHELL_CMD_REGEX]: the literal [!shell ] and then the group [( .* )]. *)
Definition SHELL_CMD_REGEX : regex :=
  Seq (literal "!shell ") (Group (Star Dot)).

(** [CTRLC_CMD_REGEX = r'!ctrl\+c|!ctrlc|!shell ctrlc|!shell ctrl\+c'] *)
Definition CTRLC_CMD_REGEX : regex :=
  Alt (literal "!ctrl+c")
    (Alt (literal "!ctrlc")
       (Alt (literal "!shell ctrlc") (literal "!shell ctrl+c"))).

(** [escape_parser]: [\x1b], an optional [\[], the group of [[\d;]]
    repeated, and the group [(\w)]. *)
Definition escape_parser : regex :=
  Seq (Chr (Lit ESC))
    (Seq (Opt (Chr (Lit 91)))
       (Seq (Group (Star (Or Digit (Lit 59)))) (Group (Chr Word)))).

(** [cleared_line_parser]: [[^\n]] repeated, then [\x1b\[K]. *)
Definition cleared_line_parser : regex :=
  Seq (Star (Not (Lit 10)))
    (Seq (Chr (Lit ESC)) (Seq (Chr (Lit 91)) (Seq (Chr (Lit 75)) Eps))).

(** ** Events, the pty and the relay state *)

(** A JSON value of an event as far as [on_message] looks at it: a string,
    or anything else together with what [str()] makes of it. *)
Inductive pyval :=
| VStr (s : text)
| VOther (shown : text).

Definition py_str (v : pyval) : text :=
  match v with VStr s => s | VOther shown => shown end.

(** [v == 'literal'] *)
Definition is_str (v : pyval) (lit : string) : bool :=
  match v with VStr s => bool_decide (s = str lit) | VOther _ => false end.

(** The event dict: [event['sender']] and [event['content']]. *)
Record event := {
  sender : text;
  content : gmap string pyval
}.

(** [pin], the text file object over the pty master: what has been written
    but not flushed, and what has reached the shell. *)
Record pty_in := {
  pending : text;
  delivered : text
}.

Definition write (pin : pty_in) (s : text) : pty_in :=
  {| pending := pending pin ++ s; delivered := delivered pin |}.

Definition flush (pin : pty_in) : pty_in :=
  {| pending := []; delivered := delivered pin ++ pending pin |}.

(** What [on_message] can touch: [pin] and the log. *)
Record world := {
  pin : pty_in;
  log : list text
}.

Definition logger_info (w : world) (line : text) : world :=
  {| pin := pin w; log := log w ++ [line] |}.

Definition with_pin (w : world) (f : pty_in -> pty_in) : world :=
  {| pin := f (pin w); log := log w |}.

Inductive outcome (A : Type) :=
| Returns (a : A)
| KeyError (key : string).
Arguments Returns {A} a.
Arguments KeyError {A} key.

(** [os.read(master, 1024)] *)
Inductive os_read :=
| ReadBytes (chunk : bytes)
| ReadRaises.

(** What one pass of the [while] loop observes of its surroundings:
    [stop.is_set()], the result of [select] (and of the read when the pty is
    readable), and the keys of [client.rooms]. *)
Record tick := {
  stop_is_set : bool;
  select_ready : option os_read;
  rooms : list string
}.

(** One call [room.send_html(html, body=text)]. *)
Record sent := {
  room : string;
  html : text;
  body : text
}.

(** The locals [buf] and [decoder]. *)
Record relay := {
  buf : list bytes;
  decoder : bytes
}.

Definition fresh : relay := {| buf := []; decoder := [] |}.

Section Program.
Context `{UnicodeData}.

(** ** handle_escape_codes *)

Definition handle_escape_codes (shell_out : text) : text :=
  let shell_out_after_clears :=
    re_sub_empty false cleared_line_parser shell_out in
  let shell_out_noescapes :=
    re_sub_empty false escape_parser shell_out_after_clears in
  shell_out_noescapes.

(** ** on_message *)

Definition on_message (ev : event) (allowed_users : list text) (w : world)
  : outcome world :=
  if bool_decide (sender ev ∈ allowed_users)
     && match content ev !! "msgtype" with
        | Some v => is_str v "m.text"
        | None => false
        end
  then
    match content ev !! "body" with
    | None => KeyError "body"
    | Some body =>
        let message := py_str body in
        match re_match true CTRLC_CMD_REGEX message with
        | Some _ =>
            let w := logger_info w (str "sending ctrl+c") in
            let w := with_pin w (fun p => write p [3%N]) in
            Returns (with_pin w flush)
        | None =>
            match re_match true SHELL_CMD_REGEX message with
            | Some cmd_match =>
                let message := group cmd_match 1 in
                let w := logger_info w (str "shell stdin: " ++ message) in
                let w := with_pin w (fun p => write p message) in
                let w := with_pin w (fun p => write p [10%N]) in
                Returns (with_pin w flush)
            | None => Returns w
            end
        end
    end
  else Returns w.

(** ** shell_stdout_handler *)

(** [text.replace('\r', '')] *)
Definition strip_cr (t : text) : text := filter (fun c => c ≠ 13%N) t.

(** The body of the [for shell_out in ...] loop, without its [logger.info]
    line: the log of the relay plays no part below. *)
Definition send_block (rooms : list string) (shell_out : text) : list sent :=
  let text := handle_escape_codes shell_out in
  let text := strip_cr text in
  let html := str "<pre><code>" ++ text ++ str "</code></pre>" in
  map (fun r => {| room := r; html := html; body := text |}) rooms.

(** The second half of the loop body: [if buf and client.rooms: ...]. *)
Definition relay_messages (t : tick) (shell_has_more : bool) (st : relay)
  : relay * list sent :=
  match buf st, rooms t with
  | _ :: _, _ :: _ =>
      let '(msgs, buf', d') :=
        stdout_to_messages (buf st) (decoder st) (negb shell_has_more) in
      ({| buf := buf'; decoder := d' |},
       flat_map (send_block (rooms t)) msgs)
  | _, _ => (st, [])
  end.

Inductive iteration :=
| Continue (st : relay) (out : list sent)
| Return                       (* the [return] under [shell_stdout == ''] *)
| Raise.                       (* [os.read] raised *)

(** The body of the [while] loop. *)
Definition relay_iteration (t : tick) (st : relay) : iteration :=
  match select_ready t with
  | Some ReadRaises => Raise
  | Some (ReadBytes shell_stdout) =>
      if py_eq (PyBytes shell_stdout) (PyStr [])
      then Return
      else
        let st := {| buf := buf st ++ [shell_stdout];
                     decoder := decoder st |} in
        let '(st', out) := relay_messages t true st in
        Continue st' out
  | None =>
      let '(st', out) := relay_messages t false st in
      Continue st' out
  end.

(** How a run over finitely many passes ends. *)
Inductive relay_end :=
| Stopped            (* [stop] was set: the loop condition failed *)
| Returned           (* the function returned from inside the loop *)
| Raised             (* an exception left the function *)
| Running.           (* the passes observed so far are used up *)

(** The [while] loop over the passes [ticks]: everything sent, the final
    locals and how the run ended. *)
Fixpoint relay_loop (ticks : list tick) (st : relay)
  : list sent * relay * relay_end :=
  match ticks with
  | [] => ([], st, Running)
  | t :: ticks' =>
      if stop_is_set t then ([], st, Stopped)
      else
        match relay_iteration t st with
        | Return => ([], st, Returned)
        | Raise => ([], st, Raised)
        | Continue st' out =>
            let '(out', st'', e) := relay_loop ticks' st' in
            (out ++ out', st'', e)
        end
  end.

Definition shell_stdout_handler (ticks : list tick)
  : list sent * relay * relay_end :=
  relay_loop ticks fresh.

End Program.

(** ** get_inviter and on_invite *)

(** An event of [invite_state['events']]: its top-level keys other than
    [content], and the [content] dict when the key is there. *)
Record state_event := {
  fields : gmap string pyval;
  content_of : option (gmap string pyval)
}.

(** [d[key]] *)
Definition getitem (d : gmap string pyval) (key : string) : outcome pyval :=
  match d !! key with
  | Some v => Returns v
  | None => KeyError key
  end.

(** The condition of the [if] in [get_inviter]; [and] evaluates its right
    operand only when the left one holds. *)
Definition names_invitee (e : state_event) (user_id : text) : outcome bool :=
  match getitem (fields e) "type" with
  | KeyError k => KeyError k
  | Returns ty =>
      if is_str ty "m.room.member" then
        match content_of e with
        | None => KeyError "content"
        | Some c =>
            match getitem c "membership" with
            | KeyError k => KeyError k
            | Returns m =>
                if is_str m "invite" then
                  match getitem (fields e) "state_key" with
                  | KeyError k => KeyError k
                  | Returns key =>
                      Returns
                        (match key with
                         | VStr s => bool_decide (s = user_id)
                         | VOther _ => false
                         end)
                  end
                else Returns false
            end
        end
      else Returns false
  end.

(** [get_inviter(invite_state, user_id)] on the list
    [invite_state['events']]: the events passed to [logger.info], and the
    value returned ([None] when the loop runs out) or the exception. *)
Fixpoint get_inviter (events : list state_event) (user_id : text)
  : list state_event * outcome (option pyval) :=
  match events with
  | [] => ([], Returns None)
  | e :: events' =>
      match names_invitee e user_id with
      | KeyError k => ([e], KeyError k)
      | Returns true =>
          match getitem (fields e) "sender" with
          | KeyError k => ([e], KeyError k)
          | Returns s => ([e], Returns (Some s))
          end
      | Returns false =>
          let '(logged, r) := get_inviter events' user_id in
          (e :: logged, r)
      end
  end.

(** [inviter in allowed_users], for what [get_inviter] returned. *)
Definition inviter_allowed (inviter : option pyval) (allowed_users : list text)
  : bool :=
  match inviter with
  | Some (VStr s) => bool_decide (s ∈ allowed_users)
  | _ => false
  end.

(** The matrix client as far as [on_invite] goes: its [user_id] and the
    rooms that [join_room] was called with. *)
Record client := {
  user_id : text;
  joined : list string
}.

Definition join_room (c : client) (room_id : string) : client :=
  {| user_id := user_id c; joined := joined c ++ [room_id] |}.

(** [on_invite(client, room_id, state, allowed_users)], without the log
    line of the join: the events logged by [get_inviter] and the client
    afterwards. *)
Definition on_invite (c : client) (room_id : string)
    (state : list state_event) (allowed_users : list text)
  : list state_event * outcome client :=
  match get_inviter state (user_id c) with
  | (logged, KeyError k) => (logged, KeyError k)
  | (logged, Returns inviter) =>
      if inviter_allowed inviter allowed_users
      then (logged, Returns (join_room c room_id))
      else (logged, Returns c)
  end.

(** ** The listening loop of run_bot *)

(** How one call [client.listen_forever()] ends: by returning, or by an
    exception, named after the first [except] clause that catches it. *)
Inductive listen_exit :=
| ListenReturns
| KeyboardInterrupt
| RequestsTimeout
| RequestsConnectionError
| OtherException.

(** What the loop touches: the [stop] event shared with the relay thread,
    the seconds spent in [time.sleep], the number of warnings logged. *)
Record supervisor := {
  stop : bool;
  slept : Z;
  warned : nat
}.

Inductive bot_end :=
| Exits (code : Z)        (* [sys.exit(code)] *)
| Propagates              (* an exception that no clause catches *)
| Listening.              (* the calls observed so far are used up *)

(** The [while True] loop of [run_bot] over the successive ends of
    [listen_forever]. *)
Fixpoint listen_loop (exits : list listen_exit) (s : supervisor)
  : supervisor * bot_end :=
  match exits with
  | [] => (s, Listening)
  | ListenReturns :: exits' => listen_loop exits' s
  | KeyboardInterrupt :: _ =>
      ({| stop := true; slept := slept s; warned := warned s |}, Exits 0)
  | RequestsTimeout :: exits' =>
      listen_loop exits'
        {| stop := stop s; slept := slept s + 5; warned := S (warned s) |}
  | RequestsConnectionError :: exits' =>
      listen_loop exits'
        {| stop := stop s; slept := slept s + 5; warned := S (S (warned s)) |}
  | OtherException :: _ => (s, Propagates)
  end.

(** ** Notions used in the statements *)

(** The spellings that [CTRLC_CMD_REGEX] lists. *)
Definition ctrlc_spellings : list string :=
  ["!ctrl+c"; "!ctrlc"; "!shell ctrlc"; "!shell ctrl+c"]%string.

(** Equal up to the case of ASCII letters. *)
Definition same_ignoring_case (a b : text) : Prop :=
  map Re.ascii_lower a = map Re.ascii_lower b.

(** A parameter character of a control sequence: an ASCII digit or [;]. *)
Definition is_param (c : N) : Prop := Re.ascii_digit c = true \/ c = 59%N.

(** An ASCII letter. *)
Definition is_letter (c : N) : Prop := Re.is_upper c || Re.is_lower c = true.

(** The chunks that the passes [ticks] read from the pty, in order. *)
Definition chunks_read (ticks : list tick) : list bytes :=
  flat_map (fun t => match select_ready t with
                     | Some (ReadBytes chunk) => [chunk]
                     | _ => []
                     end) ticks.

(** The markup around a text that is sent. *)
Definition preformatted (t : text) : text :=
  str "<pre><code>" ++ t ++ str "</code></pre>".

(** The ends of [listen_forever] after which the loop sleeps and listens
    again, and those after which it goes on at all. *)
Definition transient (e : listen_exit) : bool :=
  match e with
  | RequestsTimeout | RequestsConnectionError => true
  | _ => false
  end.

Definition recoverable (e : listen_exit) : bool :=
  match e with
  | KeyboardInterrupt | OtherException => false
  | _ => true
  end.

(** The invitation of [invitee] by [inviter], as a state event. *)
Definition invitation (inviter invitee : text) : state_event :=
  {| fields := {[ "type" := VStr (str "m.room.member");
                  "state_key" := VStr invitee;
                  "sender" := VStr inviter ]};
     content_of := Some {[ "membership" := VStr (str "invite") ]} |}.

(** A state event of another type. *)
Definition room_name_event (from : text) : state_event :=
  {| fields := {[ "type" := VStr (str "m.room.name");
                  "state_key" := VStr [];
                  "sender" := VStr from ]};
     content_of := Some {[ "name" := VStr (str "ops") ]} |}.

(** The bot before any invitation. *)
Definition bot : client := {| user_id := str "@bot:example.org"; joined := [] |}.

(** A plain-text message event. *)
Definition text_event (from : text) (body : text) : event :=
  {| sender := from;
     content := {[ "msgtype" := VStr (str "m.text"); "body" := VStr body ]} |}.

(** Nothing written, nothing logged. *)
Definition quiet : world :=
  {| pin := {| pending := []; delivered := [] |}; log := [] |}.

(** The tables of a build that knows no digit or letter beyond ASCII (what
    [re.ASCII] gives).  They only serve to run examples whose characters are
    all ASCII, where the tables are not consulted. *)
Definition ascii_tables : UnicodeData :=
  {| uni_isdecimal := fun _ => false; uni_isalnum := fun _ => false |}.

(** ** Inputs used below *)

(** A pass of the relay loop that finds the pty idle. *)
Definition idle (rooms : list string) : tick :=
  {| stop_is_set := false; select_ready := None; rooms := rooms |}.

(** A pass that reads [chunk]. *)
Definition reads (chunk : bytes) (rooms : list string) : tick :=
  {| stop_is_set := false; select_ready := Some (ReadBytes chunk);
     rooms := rooms |}.

(** A pass that finds [stop] set. *)
Definition stops (rooms : list string) : tick :=
  {| stop_is_set := true; select_ready := None; rooms := rooms |}.

(** The shell prints [A] and the first two of the three bytes of the euro
    sign, pauses and closes its output: the relay reads the three bytes,
    finds the pty idle, reads an empty result, and is stopped. *)
Definition cut_off_run : list tick :=
  let rooms := ["!room:example.org"%string] in
  [reads [x41; xe2; x82] rooms; idle rooms; reads [] rooms; stops rooms].

(** A colour sequence written inside a clear-line sequence:
    [\x1b[ \x1b[0m K]. *)
Definition nested_escape : text :=
  [ESC; 91%N] ++ [ESC] ++ str "[0m" ++ str "K".

(** Three bytes [a\nb] followed by sixteen full reads of [x]: 16387 bytes. *)
Definition buf_early_newline : list bytes :=
  [x61; newline; x62] :: replicate 16 (replicate 1024 x78).

(** Seventeen full reads: a line of [a] closed by a newline, fifteen reads of
    [b], one read of [c]. *)
Definition buf_three_lines : list bytes :=
  (replicate 1023 x61 ++ [newline])
    :: replicate 15 (replicate 1024 x62) ++ [replicate 1024 x63].

(** ** Tactics *)

(** Closed facts about concrete inputs are decided by evaluation. *)
Ltac by_evaluation := apply (bool_decide_unpack _); vm_compute; exact I.

(** Case analysis on every condition in sight. *)
Ltac split_ifs :=
  repeat match goal with
         | |- context [if ?b then _ else _] => destruct b eqn:?
         | H : context [if ?b then _ else _] |- _ => destruct b eqn:?
         end.

(** * Properties *)

(** ** Lists of chunks *)

Lemma len_nonneg {A} (s : list A) : 0 <= len s.
Proof. unfold len. lia. Qed.

Lemma len_app {A} (s t : list A) : len (s ++ t) = len s + len t.
Proof. unfold len. rewrite length_app. lia. Qed.

Lemma total_len_nonneg (buf : list bytes) : 0 <= total_len buf.
Proof.
  induction buf as [|s buf IH]; simpl; [lia|].
  pose proof (len_nonneg s). lia.
Qed.

Lemma total_len_app (a b : list bytes) :
  total_len (a ++ b) = total_len a + total_len b.
Proof. induction a as [|s a IH]; simpl; lia. Qed.

Lemma total_len_join (buf : list bytes) : total_len buf = len (join buf).
Proof.
  induction buf as [|s buf IH]; simpl; [reflexivity|].
  unfold join in *. simpl. rewrite len_app. lia.
Qed.

(** The loop takes exactly the longest front run of chunks that fits. *)
Lemma grab_chunks_greedy (consumed rest acc : list bytes) (n : Z) :
  n + total_len consumed <= MAX_STDOUT_PER_MSG ->
  match rest with
  | [] => True
  | c :: _ => MAX_STDOUT_PER_MSG < n + total_len consumed + len c
  end ->
  grab_chunks (consumed ++ rest) acc n = (acc ++ consumed, rest).
Proof.
  revert acc n. induction consumed as [|s consumed IH]; intros acc n Hfit Hnext.
  - simpl in *. rewrite (app_nil_r acc). destruct rest as [|c rest]; [reflexivity|].
    simpl. destruct (Z.leb_spec (len c + n) MAX_STDOUT_PER_MSG); [lia|reflexivity].
  - simpl in *. pose proof (total_len_nonneg consumed).
    destruct (Z.leb_spec (len s + n) MAX_STDOUT_PER_MSG); [|lia].
    rewrite IH.
    + rewrite <- app_assoc. reflexivity.
    + lia.
    + destruct rest; [exact I|]. lia.
Qed.

(** Every buffer splits that way. *)
Lemma grab_chunks_split (buf acc : list bytes) (n : Z) :
  exists consumed rest,
    buf = consumed ++ rest
    /\ grab_chunks buf acc n = (acc ++ consumed, rest)
    /\ (buf <> [] -> n + total_len buf > MAX_STDOUT_PER_MSG -> rest <> []).
Proof.
  revert acc n. induction buf as [|s buf IH]; intros acc n.
  - exists [], []. rewrite (app_nil_r acc). simpl.
    split; [reflexivity|]. split; [reflexivity|]. intros Hne. congruence.
  - simpl. destruct (Z.leb_spec (len s + n) MAX_STDOUT_PER_MSG) as [Hle|Hgt].
    + destruct (IH (acc ++ [s]) (n + len s)) as (consumed & rest & -> & Hg & Hne).
      exists (s :: consumed), rest. rewrite Hg, <- app_assoc. simpl.
      repeat split; try reflexivity.
      intros _ Hbig. apply Hne.
      * intros E. apply app_eq_nil in E as [-> ->]. simpl in *. lia.
      * lia.
    + exists [], (s :: buf). rewrite (app_nil_r acc).
      split; [reflexivity|]. split; [reflexivity|]. intros _ _. congruence.
Qed.

(** ** rfind *)

Lemma rfind_lower (s : bytes) (b : byte) : -1 <= rfind s b.
Proof.
  induction s as [|c s IH]; simpl; [lia|].
  destruct (Z.leb_spec 0 (rfind s b)); [lia|].
  destruct (Byte.eqb c b); lia.
Qed.

Lemma byte_eqb_refl (b : byte) : Byte.eqb b b = true.
Proof. apply Byte.byte_dec_lb. reflexivity. Qed.

Lemma rfind_absent (s : bytes) (b : byte) : b ∉ s -> rfind s b = -1.
Proof.
  induction s as [|c s IH]; intros Hn; simpl; [reflexivity|].
  apply not_elem_of_cons in Hn as [Hc Hs]. rewrite (IH Hs). simpl.
  destruct (Byte.eqb c b) eqn:E; [|reflexivity].
  apply Byte.byte_dec_bl in E. congruence.
Qed.

Lemma rfind_present (s : bytes) (b : byte) : rfind s b = -1 -> b ∉ s.
Proof.
  induction s as [|c s IH]; simpl; intros Hr.
  - apply not_elem_of_nil.
  - pose proof (rfind_lower s b).
    destruct (Z.leb_spec 0 (rfind s b)); [lia|].
    destruct (Byte.eqb c b) eqn:E; [lia|].
    apply not_elem_of_cons. split.
    + apply Byte.eqb_false in E. congruence.
    + apply IH. lia.
Qed.

(** [rfind] points at the last occurrence. *)
Lemma rfind_last (before after : bytes) (b : byte) :
  b ∉ after -> rfind (before ++ b :: after) b = len before.
Proof.
  intros Hn. induction before as [|c before IH]; simpl.
  - rewrite (rfind_absent _ _ Hn). simpl. rewrite byte_eqb_refl. reflexivity.
  - rewrite IH. pose proof (len_nonneg before).
    destruct (Z.leb_spec 0 (len before)); [|lia].
    unfold len. simpl. lia.
Qed.

Lemma rfind_decompose (s : bytes) (b : byte) :
  rfind s b <> -1 ->
  exists before after, s = before ++ b :: after /\ b ∉ after.
Proof.
  induction s as [|c s IH]; simpl; [congruence|].
  destruct (Z.leb_spec 0 (rfind s b)) as [Hge|Hlt].
  - intros _. destruct IH as (before & after & -> & Hn); [lia|].
    exists (c :: before), after. split; [reflexivity|assumption].
  - destruct (Byte.eqb c b) eqn:E; [|congruence].
    intros _. apply Byte.byte_dec_bl in E. subst c.
    exists [], s. split; [reflexivity|].
    apply rfind_present. pose proof (rfind_lower s b). lia.
Qed.

Lemma slice_to_len (before after : bytes) :
  slice_to (before ++ after) (len before) = before.
Proof.
  unfold slice_to, len. rewrite Nat2Z.id. apply take_app_length.
Qed.

Lemma slice_from_len (before after : bytes) (b : byte) :
  slice_from (before ++ b :: after) (len before + 1) = after.
Proof.
  unfold slice_from, len.
  replace (Z.to_nat (Z.of_nat (length before) + 1)) with (length (before ++ [b])).
  - rewrite (cons_middle b before after), app_assoc. apply drop_app_length.
  - rewrite length_app. simpl. lia.
Qed.

(** ** The three branches of stdout_to_messages, on the raw blocks *)

Lemma blocks_flush (buf : list bytes) :
  blocks_to_send buf true = ([join buf], []).
Proof. reflexivity. Qed.

Lemma blocks_below_threshold (buf : list bytes) :
  total_len buf <= MAX_STDOUT_PER_MSG ->
  blocks_to_send buf false = ([], buf).
Proof.
  intros Hle. unfold blocks_to_send.
  destruct (Z.ltb_spec MAX_STDOUT_PER_MSG (total_len buf)); [lia|reflexivity].
Qed.

Lemma blocks_split_newline (consumed rest : list bytes) (before after : bytes) :
  MAX_STDOUT_PER_MSG < total_len (consumed ++ rest) ->
  grab_chunks (consumed ++ rest) [] 0 = (consumed, rest) ->
  join consumed = before ++ newline :: after ->
  newline ∉ after ->
  blocks_to_send (consumed ++ rest) false = ([before], rest ++ [after]).
Proof.
  intros Hbig Hgrab Hjoin Hlast. unfold blocks_to_send.
  destruct (Z.ltb_spec MAX_STDOUT_PER_MSG (total_len (consumed ++ rest))); [|lia].
  rewrite Hgrab, Hjoin, (rfind_last _ _ _ Hlast).
  pose proof (len_nonneg before).
  destruct (Z.eqb_spec (len before) (-1)); [lia|]. simpl.
  rewrite slice_to_len, slice_from_len. reflexivity.
Qed.

Lemma blocks_split_no_newline (consumed rest : list bytes) :
  MAX_STDOUT_PER_MSG < total_len (consumed ++ rest) ->
  grab_chunks (consumed ++ rest) [] 0 = (consumed, rest) ->
  newline ∉ join consumed ->
  blocks_to_send (consumed ++ rest) false = ([join consumed], rest).
Proof.
  intros Hbig Hgrab Hnone. unfold blocks_to_send.
  destruct (Z.ltb_spec MAX_STDOUT_PER_MSG (total_len (consumed ++ rest))); [|lia].
  rewrite Hgrab, (rfind_absent _ _ Hnone). reflexivity.
Qed.

Lemma stdout_to_messages_one_block `{IncrementalDecoder D}
    (buf buf' : list bytes) (block : bytes) (d : D) (flush : bool) :
  blocks_to_send buf flush = ([block], buf') ->
  stdout_to_messages buf d flush =
    ([(decode d block false).1], buf', (decode d block false).2).
Proof.
  intros Hb. unfold stdout_to_messages. rewrite Hb. simpl.
  destruct (decode d block false); reflexivity.
Qed.

(** ** stdout_to_messages *)

(** C9: one call returns exactly one block when flushing or above the
    threshold, and none otherwise; it never returns several. *)
Theorem stdout_to_messages_block_count `{IncrementalDecoder D}
    (buf : list bytes) (d : D) (flush : bool) :
  length (stdout_to_messages buf d flush).1.1 =
    if flush || (MAX_STDOUT_PER_MSG <? total_len buf) then 1%nat else 0%nat.
Proof.
  unfold stdout_to_messages, blocks_to_send.
  destruct flush; simpl.
  - destruct (decode d (join buf) false); reflexivity.
  - destruct (MAX_STDOUT_PER_MSG <? total_len buf); [|reflexivity].
    destruct (grab_chunks buf [] 0) as [sent rest].
    destruct (negb _); simpl; destruct (decode d _ false); reflexivity.
Qed.

(** C2, as the specification states it, fails on [buf_early_newline]: the
    buffer exceeds the threshold and the span taken from its front holds a
    newline, but the block returned is [a], without the newline, and two
    chunks are retained, the unread one and the remainder. *)
Lemma split_keeps_newline_counterexample :
  MAX_STDOUT_PER_MSG < total_len buf_early_newline
  /\ newline ∈ join (grab_chunks buf_early_newline [] 0).1
  /\ stdout_to_messages buf_early_newline ([] : bytes) false
     = ([str "a"],
        [replicate 1024 x78; x62 :: replicate (15 * 1024) x78],
        [])
  /\ stdout_to_messages buf_early_newline ([] : bytes) false
     <> ([str "a" ++ [10%N]], [x62 :: replicate (15 * 1024) x78], []).
Proof.
  split; [reflexivity|]. split; [by_evaluation|].
  split; by_evaluation.
Qed.

(** C2, amended: above the threshold, when the span taken greedily from the
    front of the buffer holds a newline, the one block returned is the
    decoded content of the span before its last newline; the newline is in
    neither the block nor the buffer; the content after it is retained as one
    chunk, next to the chunks that were not taken, of which there is at least
    one. *)
Theorem split_before_last_newline `{IncrementalDecoder D}
    (consumed rest : list bytes) (before after : bytes) (d : D) :
  MAX_STDOUT_PER_MSG < total_len (consumed ++ rest) ->
  total_len consumed <= MAX_STDOUT_PER_MSG ->
  (forall c, head rest = Some c ->
             MAX_STDOUT_PER_MSG < total_len consumed + len c) ->
  join consumed = before ++ newline :: after ->
  newline ∉ after ->
  exists buf',
    stdout_to_messages (consumed ++ rest) d false
    = ([(decode d before false).1], buf', (decode d before false).2)
    /\ buf' ≡ₚ after :: rest
    /\ rest <> [].
Proof.
  intros Hbig Hfit Hnext Hjoin Hlast.
  exists (rest ++ [after]). split; [|split].
  - apply stdout_to_messages_one_block.
    apply blocks_split_newline; try assumption.
    apply (grab_chunks_greedy consumed rest [] 0); [lia|].
    destruct rest as [|c rest']; [exact I|].
    specialize (Hnext c eq_refl). lia.
  - rewrite Permutation_app_comm. reflexivity.
  - intros ->. rewrite app_nil_r in Hbig. lia.
Qed.

Lemma split_before_last_newline_witness :
  exists buf',
    stdout_to_messages
      (([x61; newline; x62] :: replicate 15 (replicate 1024 x78))
         ++ [replicate 1024 x78]) ([] : bytes) false
    = ([(decode [] [x61] false).1], buf', (decode [] [x61] false).2)
    /\ buf' ≡ₚ (x62 :: replicate (15 * 1024) x78) :: [replicate 1024 x78]
    /\ [replicate 1024 x78] <> [].
Proof.
  apply (split_before_last_newline
           ([x61; newline; x62] :: replicate 15 (replicate 1024 x78))
           [replicate 1024 x78] [x61] (x62 :: replicate (15 * 1024) x78) []).
  - reflexivity.
  - by_evaluation.
  - intros c [= <-]. reflexivity.
  - by_evaluation.
  - by_evaluation.
Defined.

(** C3 at [buf_three_lines], seventeen reads of 1024 bytes with the relay
    not flushing: the block is the line of [a]; the remainder, fifteen reads
    of [b], is put back behind the read of [c] that was not taken, so that
    the retained bytes are no longer in the order in which they were
    produced, and what is emitted and retained is not the buffer's content. *)
Theorem remainder_requeued_behind_unread :
  MAX_STDOUT_PER_MSG < total_len buf_three_lines
  /\ blocks_to_send buf_three_lines false
     = ([replicate 1023 x61],
        [replicate 1024 x63; replicate (15 * 1024) x62])
  /\ join buf_three_lines
     = replicate 1023 x61 ++ [newline]
         ++ replicate (15 * 1024) x62 ++ replicate 1024 x63
  /\ join (blocks_to_send buf_three_lines false).1
       ++ join (blocks_to_send buf_three_lines false).2
     <> join buf_three_lines
  /\ stdout_to_messages buf_three_lines ([] : bytes) false
     = ([replicate 1023 97%N],
        [replicate 1024 x63; replicate (15 * 1024) x62],
        []).
Proof.
  split; [reflexivity|]. split; [by_evaluation|].
  split; [by_evaluation|]. split; by_evaluation.
Qed.

(** ** Matching *)

Section RegexFacts.
Context `{UnicodeData}.

Lemma same_ignoring_case_matches (p c : N) :
  ascii_lower p = ascii_lower c -> class_matches true (Lit p) c = true.
Proof.
  intros E. simpl. unfold lit_matches_icase. rewrite E, N.eqb_refl. reflexivity.
Qed.

(** A literal pattern accepts every spelling of itself, whatever follows. *)
Lemma run_literal {R} (lit pre rest : text) (caps : list text)
    (k : text -> list text -> option R) :
  same_ignoring_case lit pre ->
  run true (foldr (fun c r => Seq (Chr (Lit c)) r) Eps lit) (pre ++ rest) caps k
  = k rest caps.
Proof.
  unfold same_ignoring_case. revert pre.
  induction lit as [|p lit IH]; intros [|c pre] E; simpl in E; try discriminate.
  - reflexivity.
  - injection E as Ec E. cbn [foldr run app].
    rewrite (same_ignoring_case_matches p c Ec). apply IH, E.
Qed.

(** A greedy star over characters that all match takes them all. *)
Lemma star_match_all {R} (p : N -> bool) (s : text) (k : text -> option R) x :
  Forall (fun c => p c = true) s -> k [] = Some x -> star_match p s k = Some x.
Proof.
  intros Hall Hk. induction Hall as [|c s Hc _ IH]; simpl; [assumption|].
  rewrite Hc, IH. reflexivity.
Qed.

(** A star fails when its continuation fails behind every run. *)
Lemma star_match_none {R} (p : N -> bool) (s : text) (k : text -> option R) :
  (forall s', s' `suffix_of` s -> k s' = None) -> star_match p s k = None.
Proof.
  induction s as [|c s IH]; intros Hk; simpl.
  - apply Hk. reflexivity.
  - rewrite IH.
    + rewrite (Hk (c :: s)) by reflexivity. destruct (p c); reflexivity.
    + intros s' Hs. apply Hk. apply suffix_cons_r, Hs.
Qed.

Lemma ctrlc_regex_accepts (spelling : string) (pre rest : text) :
  spelling ∈ ctrlc_spellings ->
  same_ignoring_case (str spelling) pre ->
  is_Some (re_match true CTRLC_CMD_REGEX (pre ++ rest)).
Proof.
  intros Hin Hsame. unfold re_match, CTRLC_CMD_REGEX, literal.
  cbn [run]. unfold ctrlc_spellings in Hin.
  repeat match goal with
         | Hin : _ ∈ _ :: _ |- _ => apply elem_of_cons in Hin as [->|Hin]
         | Hin : _ ∈ [] |- _ => apply elem_of_nil in Hin; contradiction
         end.
  - rewrite (run_literal _ pre rest) by exact Hsame. eauto.
  - destruct (run true _ (pre ++ rest) [] _); [eauto|].
    rewrite (run_literal _ pre rest) by exact Hsame. eauto.
  - do 2 (destruct (run true _ (pre ++ rest) [] _); [eauto|]).
    rewrite (run_literal _ pre rest) by exact Hsame. eauto.
  - do 3 (destruct (run true _ (pre ++ rest) [] _); [eauto|]).
    rewrite (run_literal _ pre rest) by exact Hsame. eauto.
Qed.

Lemma shell_regex_accepts (pre cmd : text) :
  same_ignoring_case (str "!shell ") pre ->
  10%N ∉ cmd ->
  re_match true SHELL_CMD_REGEX (pre ++ cmd) = Some ([cmd], []).
Proof.
  intros Hsame Hnl. unfold re_match, SHELL_CMD_REGEX, literal.
  cbn [run]. rewrite (run_literal _ pre cmd) by exact Hsame.
  cbn [run]. apply star_match_all.
  - apply Forall_forall. intros c Hc. simpl.
    destruct (N.eqb_spec c 10); [subst; contradiction|reflexivity].
  - simpl. rewrite Nat.sub_0_r, firstn_all. reflexivity.
Qed.

End RegexFacts.

(** ** on_message *)

Lemma text_event_msgtype (from body : text) :
  content (text_event from body) !! "msgtype" = Some (VStr (str "m.text")).
Proof. reflexivity. Qed.

Lemma text_event_body (from body : text) :
  content (text_event from body) !! "body" = Some (VStr body).
Proof. reflexivity. Qed.

Section InputRouter.
Context `{UnicodeData}.

(** What [on_message] does once the sender and the message type are
    accepted and the body is there. *)
Lemma on_message_accepted (ev : event) (allowed_users : list text) (w : world)
    (b : pyval) :
  sender ev ∈ allowed_users ->
  content ev !! "msgtype" = Some (VStr (str "m.text")) ->
  content ev !! "body" = Some b ->
  on_message ev allowed_users w =
    match re_match true CTRLC_CMD_REGEX (py_str b) with
    | Some _ =>
        Returns
          {| pin := {| pending := [];
                       delivered :=
                         delivered (pin w) ++ pending (pin w) ++ [3%N] |};
             log := log w ++ [str "sending ctrl+c"] |}
    | None =>
        match re_match true SHELL_CMD_REGEX (py_str b) with
        | Some m =>
            Returns
              {| pin := {| pending := [];
                           delivered :=
                             delivered (pin w)
                               ++ pending (pin w) ++ group m 1 ++ [10%N] |};
                 log := log w ++ [str "shell stdin: " ++ group m 1] |}
        | None => Returns w
        end
    end.
Proof.
  intros Hin Hty Hbody. unfold on_message.
  rewrite (bool_decide_eq_true_2 _ Hin), Hty, Hbody.
  assert (Htext : is_str (VStr (str "m.text")) "m.text" = true) by by_evaluation.
  rewrite Htext. cbn [andb].
  destruct (re_match true CTRLC_CMD_REGEX (py_str b)) as [m|].
  - reflexivity.
  - destruct (re_match true SHELL_CMD_REGEX (py_str b)) as [m|]; [|reflexivity].
    unfold with_pin, logger_info, write, flush. simpl.
    rewrite <- ?app_assoc. reflexivity.
Qed.



(** C6: a plain-text message from an allowed sender whose body is one of
    the ctrl-c spellings, in any letter case, writes the single character
    0x03 and flushes, with no newline; the two spellings that are also of
    the [!shell <command>] form are taken as ctrl-c all the same. *)
Theorem ctrl_c_sends_interrupt (ev : event) (allowed_users : list text)
    (w : world) (spelling : string) (b : pyval) :
  sender ev ∈ allowed_users ->
  content ev !! "msgtype" = Some (VStr (str "m.text")) ->
  content ev !! "body" = Some b ->
  spelling ∈ ctrlc_spellings ->
  same_ignoring_case (str spelling) (py_str b) ->
  on_message ev allowed_users w =
    Returns
      {| pin := {| pending := [];
                   delivered :=
                     delivered (pin w) ++ pending (pin w) ++ [3%N] |};
         log := log w ++ [str "sending ctrl+c"] |}
  /\ (spelling ∈ ["!shell ctrlc"; "!shell ctrl+c"]%string ->
      re_match true SHELL_CMD_REGEX (py_str b)
      = Some ([drop 7 (py_str b)], [])).
Proof.
  intros Hin Hty Hbody Hsp Hsame. split.
  - rewrite (on_message_accepted ev allowed_users w _ Hin Hty Hbody).
    destruct (ctrlc_regex_accepts spelling (py_str b) [] Hsp Hsame) as [m Hm].
    rewrite app_nil_r in Hm. rewrite Hm. reflexivity.
  - intros Hshell. rewrite <- (take_drop 7 (py_str b)) at 1.
    unfold same_ignoring_case in Hsame.
    assert (Hcut : map ascii_lower (str spelling)
                   = map ascii_lower (take 7 (py_str b))
                       ++ map ascii_lower (drop 7 (py_str b))).
    { rewrite Hsame, <- map_app, take_drop. reflexivity. }
    assert (Hlong : (7 <= length (py_str b))%nat).
    { apply (f_equal length) in Hsame. rewrite !length_map in Hsame.
      rewrite <- Hsame. clear -Hshell.
      apply elem_of_cons in Hshell as [->|Hshell]; [by_evaluation|].
      apply elem_of_cons in Hshell as [->|Hshell]; [by_evaluation|].
      apply elem_of_nil in Hshell. contradiction. }
    assert (Hlen : length (map ascii_lower (take 7 (py_str b))) = 7%nat).
    { rewrite length_map, length_take. lia. }
    apply shell_regex_accepts.
    + unfold same_ignoring_case.
      apply (f_equal (take 7)) in Hcut.
      rewrite take_app_length' in Hcut by (symmetry; exact Hlen).
      rewrite <- Hcut. clear -Hshell.
      apply elem_of_cons in Hshell as [->|Hshell]; [reflexivity|].
      apply elem_of_cons in Hshell as [->|Hshell]; [reflexivity|].
      apply elem_of_nil in Hshell. contradiction.
    + apply (f_equal (drop 7)) in Hcut.
      rewrite drop_app_length' in Hcut by (symmetry; exact Hlen).
      intros Hnl. apply list_elem_of_In, (in_map ascii_lower) in Hnl.
      rewrite <- Hcut in Hnl. apply list_elem_of_In in Hnl.
      clear -Hshell Hnl. revert Hnl.
      apply elem_of_cons in Hshell as [->|Hshell]; [by_evaluation|].
      apply elem_of_cons in Hshell as [->|Hshell]; [by_evaluation|].
      apply elem_of_nil in Hshell. contradiction.
Qed.

(** C10: the ctrl-c form only has to be at the start of the body: whatever
    follows an accepted spelling, the single character 0x03 is written. *)
Theorem ctrl_c_prefix_suffices (ev : event) (allowed_users : list text)
    (w : world) (spelling : string) (pre rest : text) :
  sender ev ∈ allowed_users ->
  content ev !! "msgtype" = Some (VStr (str "m.text")) ->
  content ev !! "body" = Some (VStr (pre ++ rest)) ->
  spelling ∈ ctrlc_spellings ->
  same_ignoring_case (str spelling) pre ->
  on_message ev allowed_users w =
    Returns
      {| pin := {| pending := [];
                   delivered :=
                     delivered (pin w) ++ pending (pin w) ++ [3%N] |};
         log := log w ++ [str "sending ctrl+c"] |}.
Proof.
  intros Hin Hty Hbody Hsp Hsame.
  rewrite (on_message_accepted ev allowed_users w _ Hin Hty Hbody). simpl.
  destruct (ctrlc_regex_accepts spelling pre rest Hsp Hsame) as [m Hm].
  rewrite Hm. reflexivity.
Qed.

(** C8: an event whose sender is not allowed, or whose content is not of
    type [m.text], changes nothing: nothing is written to the pty, nothing
    is logged, and no exception is raised. *)
Theorem unauthorized_or_not_text_ignored (ev : event)
    (allowed_users : list text) (w : world) :
  sender ev ∉ allowed_users
  \/ content ev !! "msgtype" <> Some (VStr (str "m.text")) ->
  on_message ev allowed_users w = Returns w.
Proof.
  intros Hno. unfold on_message.
  destruct (bool_decide_reflect (sender ev ∈ allowed_users)) as [Hin|Hout];
    [|reflexivity].
  simpl. destruct Hno as [Hno|Hno]; [contradiction|].
  destruct (content ev !! "msgtype") as [[s|shown]|]; simpl; try reflexivity.
  destruct (bool_decide_reflect (s = str "m.text")) as [->|Hne];
    [congruence|reflexivity].
Qed.

End InputRouter.


Lemma ctrl_c_sends_interrupt_witness :
  on_message (H := ascii_tables) (text_event (str "@op:example.org") (str "!Shell CTRL+C"))
    [str "@op:example.org"] quiet =
    Returns
      {| pin := {| pending := [];
                   delivered :=
                     delivered (pin quiet) ++ pending (pin quiet) ++ [3%N] |};
         log := log quiet ++ [str "sending ctrl+c"] |}
  /\ ("!shell ctrl+c"%string ∈ ["!shell ctrlc"; "!shell ctrl+c"]%string ->
      re_match (H := ascii_tables) true SHELL_CMD_REGEX (py_str (VStr (str "!Shell CTRL+C")))
      = Some ([drop 7 (py_str (VStr (str "!Shell CTRL+C")))], [])).
Proof.
  apply (ctrl_c_sends_interrupt (H := ascii_tables)
           (text_event (str "@op:example.org") (str "!Shell CTRL+C"))
           [str "@op:example.org"] quiet "!shell ctrl+c"
           (VStr (str "!Shell CTRL+C"))).
  - by_evaluation.
  - reflexivity.
  - reflexivity.
  - by_evaluation.
  - reflexivity.
Defined.

Lemma ctrl_c_prefix_suffices_witness :
  on_message (H := ascii_tables) (text_event (str "@op:example.org") (str "!ctrlc" ++ str " please"))
    [str "@op:example.org"] quiet =
    Returns
      {| pin := {| pending := [];
                   delivered :=
                     delivered (pin quiet) ++ pending (pin quiet) ++ [3%N] |};
         log := log quiet ++ [str "sending ctrl+c"] |}.
Proof.
  apply (ctrl_c_prefix_suffices (H := ascii_tables) _ _ _ "!ctrlc" (str "!ctrlc") (str " please")).
  - by_evaluation.
  - reflexivity.
  - reflexivity.
  - by_evaluation.
  - reflexivity.
Defined.

Lemma unauthorized_or_not_text_ignored_witness :
  on_message (H := ascii_tables) (text_event (str "@guest:example.org") (str "!shell rm -r ."))
    [str "@op:example.org"] quiet = Returns quiet.
Proof.
  apply (unauthorized_or_not_text_ignored (H := ascii_tables)).
  left. by_evaluation.
Defined.

(** ** handle_escape_codes *)

Section EscapeFilter.
Context `{UnicodeData}.

(** Where the pattern matches at no position, [re.sub] returns its input. *)
Lemma sub_scan_no_match (r : regex) (s : text) :
  (forall s', s' `suffix_of` s -> re_match false r s' = None) ->
  sub_scan false r 0 s = s.
Proof.
  induction s as [|c s IH]; intros Hno; simpl; [reflexivity|].
  rewrite (Hno (c :: s)) by reflexivity. f_equal.
  apply IH. intros s' Hs. apply Hno, suffix_cons_r, Hs.
Qed.

Lemma not_escape_head (c : N) (s : text) :
  ESC ∉ c :: s -> (c =? ESC)%N = false.
Proof.
  intros Hn. apply N.eqb_neq. intros ->. apply Hn. left.
Qed.

Lemma cleared_line_needs_escape (s : text) :
  ESC ∉ s -> re_match false cleared_line_parser s = None.
Proof.
  intros Hn. unfold re_match, cleared_line_parser. cbn [run].
  apply star_match_none. intros [|c s'] Hs; [reflexivity|].
  cbn [class_matches]. rewrite (not_escape_head c s'); [reflexivity|].
  intros Hin. apply Hn. destruct Hs as [front ->].
  apply elem_of_app. right. exact Hin.
Qed.

Lemma escape_parser_needs_escape (s : text) :
  ESC ∉ s -> re_match false escape_parser s = None.
Proof.
  intros Hn. unfold re_match, escape_parser. cbn [run].
  destruct s as [|c s]; [reflexivity|].
  cbn [class_matches]. rewrite (not_escape_head c s Hn). reflexivity.
Qed.

(** Text without an escape character passes the filter unchanged. *)
Lemma handle_escape_codes_plain (s : text) :
  ESC ∉ s -> handle_escape_codes s = s.
Proof.
  intros Hn.
  assert (Hsuf : forall s', s' `suffix_of` s -> ESC ∉ s').
  { intros s' [front ->] Hin. apply Hn, elem_of_app. right. exact Hin. }
  unfold handle_escape_codes, re_sub_empty.
  rewrite (sub_scan_no_match cleared_line_parser s).
  - apply sub_scan_no_match. intros s' Hs.
    apply escape_parser_needs_escape, Hsuf, Hs.
  - intros s' Hs. apply cleared_line_needs_escape, Hsuf, Hs.
Qed.

End EscapeFilter.

(** C4, as the specification states it, fails: filtering [nested_escape]
    removes the inner colour sequence and leaves a clear-line sequence, which
    a second pass removes. *)
Lemma handle_escape_codes_not_idempotent :
  (~ exists U : UnicodeData,
       handle_escape_codes (H := U) (handle_escape_codes (H := U) nested_escape)
       = handle_escape_codes (H := U) nested_escape)
  /\ handle_escape_codes (H := ascii_tables) nested_escape
     = [ESC] ++ str "[K"
  /\ handle_escape_codes (H := ascii_tables)
       (handle_escape_codes (H := ascii_tables) nested_escape)
     = [].
Proof.
  split; [|split; reflexivity].
  intros [U E]. vm_compute in E. discriminate.
Qed.

(** ** The decoder on data that ends inside a character *)

Module Utf8Facts.
Import Utf8.
Local Open Scope nat_scope.

(** A character or an ill-formed run that [classify] finds lies within
    the data, and more data behind it does not change it. *)
Lemma classify_app (s q : list N) :
  classify s <> Incomplete ->
  classify (s ++ q) = classify s
  /\ match classify s with
     | Char _ n | Invalid n => 1 <= n <= length s
     | Incomplete => True
     end.
Proof.
  destruct s as [|b1 [|b2 [|b3 [|b4 s]]]];
    destruct q as [|c1 [|c2 [|c3 q]]];
    cbn [app classify length]; intros Hc;
    split_ifs; try congruence; (split; [reflexivity|lia]).
Qed.

Lemma truncated_surrogate_app (s q : list N) :
  classify s <> Incomplete ->
  truncated_surrogate s = false ->
  truncated_surrogate (s ++ q) = false.
Proof.
  destruct s as [|b1 [|b2 [|b3 s]]]; destruct q as [|c1 [|c2 q]];
    cbn [app truncated_surrogate classify]; try reflexivity; try congruence.
  intros Hc _.
  destruct (N.eqb_spec b1 0xED) as [->|]; [|reflexivity].
  exfalso. apply Hc. reflexivity.
Qed.

Lemma advance_app (s q : list N) (c : N) (n : nat) :
  advance false s = Some (c, n) ->
  advance false (s ++ q) = Some (c, n) /\ 1 <= n <= length s.
Proof.
  unfold advance. intros Ha.
  assert (Hc : classify s <> Incomplete).
  { intros E. rewrite E in Ha. discriminate. }
  destruct (classify_app s q Hc) as [-> Hn].
  pose proof (truncated_surrogate_app s q Hc) as Htr.
  destruct (classify s) as [c' n'|n'|]; [| |congruence].
  - split; [exact Ha|]. injection Ha as <- <-. exact Hn.
  - cbn [negb andb] in *.
    destruct (truncated_surrogate s) eqn:Ht; [discriminate|].
    rewrite (Htr eq_refl).
    split; [exact Ha|]. injection Ha as <- <-. exact Hn.
Qed.

(** When [pre] is consumed to its end and [p] is the cut-off start of a
    character, decoding [pre ++ p] gives the text of [pre] and leaves
    [p]. *)
Lemma scan_retains (p : list N) :
  classify p = Incomplete ->
  forall (pre : list N) (skip : nat) (t : text),
    skip <= length pre ->
    scan false skip pre = (t, []) ->
    scan false skip (pre ++ p) = (t, p).
Proof.
  intros Hp. induction pre as [|b pre IH]; intros skip t Hskip Hscan.
  - cbn [length] in Hskip. assert (skip = 0) as -> by lia.
    cbn in Hscan. injection Hscan as <-. cbn [app].
    destruct p as [|c p]; [reflexivity|].
    cbn [scan]. unfold advance. rewrite Hp. reflexivity.
  - cbn [app scan] in *. destruct skip as [|k].
    + destruct (advance false (b :: pre)) as [[c n]|] eqn:Ha; [|discriminate].
      destruct (advance_app (b :: pre) p c n Ha) as [Ha' Hn].
      cbn [app] in Ha'. rewrite Ha'.
      destruct (scan false (Nat.pred n) pre) as [t' rest] eqn:Hs.
      injection Hscan as <- ->.
      rewrite (IH (Nat.pred n) t'); [reflexivity| |exact Hs].
      cbn [length] in Hn. lia.
    + apply IH; [cbn [length] in Hskip; lia|exact Hscan].
Qed.

Lemma scan_rest_length (final : bool) (s : list N) (skip : nat) :
  length (scan final skip s).2 <= length s.
Proof.
  revert skip. induction s as [|b s IH]; intros skip; cbn [scan]; [reflexivity|].
  destruct skip as [|k].
  - destruct (advance final (b :: s)) as [[c n]|]; [|reflexivity].
    specialize (IH (Nat.pred n)).
    destruct (scan final (Nat.pred n) s) as [t rest]. cbn in *. lia.
  - specialize (IH k). cbn [length]. lia.
Qed.

Lemma decode_retains (pre p : bytes) (t : text) :
  utf_8_decode pre false = (t, length pre) ->
  classify (map Byte.to_N p) = Incomplete ->
  decode (D := bytes) [] (pre ++ p) false = (t, p).
Proof.
  unfold decode, utf8_decoder, utf_8_decode. cbn [app].
  intros Hpre Hp.
  pose proof (scan_rest_length false (map Byte.to_N pre) 0) as Hle.
  destruct (scan false 0 (map Byte.to_N pre)) as [t' rest] eqn:Hs.
  injection Hpre as -> Hlen. cbn in Hle.
  assert (rest = []) as ->.
  { destruct rest as [|r rest]; [reflexivity|].
    rewrite length_map in Hle. cbn [length] in *.
    destruct (length pre); lia. }
  rewrite map_app.
  rewrite (scan_retains _ Hp _ 0 t); [|lia|exact Hs].
  rewrite length_app, length_map.
  replace (length pre + length p - length p) with (length pre) by lia.
  rewrite drop_app_length. reflexivity.
Qed.

(** A final call on retained bytes emits text. *)
Lemma final_flush_emits (ret : bytes) :
  ret <> [] -> (decode (D := bytes) ret [] true).1 <> [].
Proof.
  unfold decode, utf8_decoder, utf_8_decode. rewrite app_nil_r.
  destruct ret as [|b ret]; [congruence|]. intros _.
  cbn [map scan]. unfold advance.
  destruct (classify _) as [c n|n|]; cbn [negb andb];
    destruct (scan true _ _); cbn; congruence.
Qed.

End Utf8Facts.

(** ** shell_stdout_handler *)

Section OutputRelay.
Context `{UnicodeData}.

(** No pass takes the [return] of the loop: that a [bytes] object equals
    the [str] literal never holds. *)
Lemma relay_iteration_never_returns (t : tick) (st : relay) :
  relay_iteration t st <> Return.
Proof.
  unfold relay_iteration.
  destruct (select_ready t) as [[chunk|]|]; cbn [py_eq].
  - destruct (relay_messages t true _). discriminate.
  - discriminate.
  - destruct (relay_messages t false st). discriminate.
Qed.

Lemma relay_loop_never_returns (ticks : list tick) (st : relay) :
  (relay_loop ticks st).2 <> Returned.
Proof.
  revert st. induction ticks as [|t ticks IH]; intros st; cbn [relay_loop].
  - discriminate.
  - destruct (stop_is_set t); [discriminate|].
    pose proof (relay_iteration_never_returns t st) as Hnr.
    destruct (relay_iteration t st) as [st' out| |]; [|congruence|discriminate].
    specialize (IH st'). destruct (relay_loop ticks st') as [[out' st''] e].
    exact IH.
Qed.

(** C1 at an empty read: [bytes] never equal the [str] literal that the
    read result is compared with, so the pass does not return; the empty
    chunk is appended to the buffer and the loop goes on, and no run of the
    relay ends by that [return]. *)
Theorem empty_read_does_not_end_relay (stop : bool) (rooms : list string)
    (st : relay) (ticks : list tick) :
  relay_iteration
    {| stop_is_set := stop; select_ready := Some (ReadBytes []);
       rooms := rooms |} st
  = (let '(st', out) :=
       relay_messages
         {| stop_is_set := stop; select_ready := Some (ReadBytes []);
            rooms := rooms |}
         true {| buf := buf st ++ [[]]; decoder := decoder st |} in
     Continue st' out)
  /\ relay_iteration
       {| stop_is_set := stop; select_ready := Some (ReadBytes []);
          rooms := rooms |} st
     <> Return
  /\ relay_loop [reads [] rooms] fresh
     = ([], {| buf := [[]]; decoder := [] |}, Running)
  /\ (relay_loop (reads [] rooms :: ticks) st).2 <> Returned.
Proof.
  split; [reflexivity|]. split; [apply relay_iteration_never_returns|]. split.
  - destruct rooms as [|r rooms]; reflexivity.
  - apply relay_loop_never_returns.
Qed.

(** The end of the loop emits nothing, whatever is buffered or retained. *)
Lemma relay_loop_last (last : tick) (st : relay) :
  stop_is_set last = true \/ select_ready last = Some ReadRaises ->
  relay_loop [last] st
  = ([], st, if stop_is_set last then Stopped else Raised).
Proof.
  intros Hend. cbn [relay_loop].
  destruct (stop_is_set last); [reflexivity|].
  destruct Hend as [Hend|Hend]; [discriminate|].
  unfold relay_iteration. rewrite Hend. reflexivity.
Qed.

(** An idle pass flushes the whole buffer through a non-final decode. *)
Lemma relay_idle_flush (rs : list string) (st : relay) :
  buf st <> [] -> rs <> [] ->
  relay_iteration (idle rs) st
  = Continue
      {| buf := [];
         decoder := (decode (decoder st) (join (buf st)) false).2 |}
      (send_block rs (decode (decoder st) (join (buf st)) false).1).
Proof.
  intros Hbuf Hrooms. unfold relay_iteration, relay_messages. cbn [select_ready idle].
  destruct (buf st) as [|c chunks] eqn:Eb; [congruence|].
  cbn [rooms].
  destruct rs as [|r rs]; [congruence|].
  unfold stdout_to_messages. cbn [negb blocks_to_send decode_blocks].
  destruct (decode (decoder st) (join (c :: chunks)) false) as [t d'].
  cbn [flat_map fst snd]. rewrite app_nil_r. reflexivity.
Qed.

(** C7, amended: the relay makes no final call to the decoder.  When the
    buffered bytes end inside a multi-byte sequence, the idle flush sends the
    text of the complete part only, the cut-off bytes stay in the decoder, and
    the relay then ends, on the stop flag or on a read error, without anything
    being emitted for them. *)
Theorem retained_bytes_stay_in_decoder (chunks : list bytes) (pre p : bytes)
    (t : text) (rooms : list string) (last : tick) :
  chunks <> [] ->
  rooms <> [] ->
  join chunks = pre ++ p ->
  Utf8.utf_8_decode pre false = (t, length pre) ->
  Utf8.classify (map Byte.to_N p) = Utf8.Incomplete ->
  stop_is_set last = true \/ select_ready last = Some ReadRaises ->
  relay_loop [idle rooms; last] {| buf := chunks; decoder := [] |}
  = (send_block rooms t,
     {| buf := []; decoder := p |},
     if stop_is_set last then Stopped else Raised).
Proof.
  intros Hchunks Hrooms Hjoin Hpre Hp Hend.
  cbn [relay_loop]. change (stop_is_set (idle rooms)) with false. cbn iota.
  rewrite relay_idle_flush by assumption. cbn [buf decoder].
  rewrite Hjoin, (Utf8Facts.decode_retains pre p t Hpre Hp). cbn [fst snd].
  pose proof (relay_loop_last last {| buf := []; decoder := p |} Hend) as Hl.
  cbn [relay_loop] in Hl. rewrite Hl. rewrite app_nil_r. reflexivity.
Qed.

End OutputRelay.

(** C7, as the specification states it, fails on [cut_off_run]: no
    replacement character is ever sent for the two bytes that the decoder
    retains, although a final call would have produced one. *)
Lemma relay_ends_without_final_decode :
  (~ exists (U : UnicodeData) (out : list sent) (st : relay) (e : relay_end),
       shell_stdout_handler (H := U) cut_off_run = (out, st, e)
       /\ Utf8.replacement ∈ concat (map body out))
  /\ shell_stdout_handler (H := ascii_tables) cut_off_run
     = ([{| room := "!room:example.org";
            html := str "<pre><code>A</code></pre>";
            body := str "A" |}],
        {| buf := [[]]; decoder := [xe2; x82] |},
        Stopped)
  /\ decode (D := bytes) [xe2; x82] [] true = ([Utf8.replacement], []).
Proof.
  split; [|split; reflexivity].
  intros (U & out & st & e & Hrun & Hin).
  vm_compute in Hrun. injection Hrun as <- <- <-.
  apply list_elem_of_In in Hin. vm_compute in Hin.
  destruct Hin as [Hin|[]]. discriminate.
Qed.

Lemma retained_bytes_stay_in_decoder_witness :
  relay_loop (H := ascii_tables)
    [idle ["!room:example.org"%string]; stops ["!room:example.org"%string]]
    {| buf := [[x41; xe2]; [x82]]; decoder := [] |}
  = (send_block (H := ascii_tables) ["!room:example.org"%string] (str "A"),
     {| buf := []; decoder := [xe2; x82] |},
     if stop_is_set (stops ["!room:example.org"%string])
     then Stopped else Raised).
Proof.
  apply (retained_bytes_stay_in_decoder (H := ascii_tables)
           [[x41; xe2]; [x82]] [x41] [xe2; x82]).
  - discriminate.
  - discriminate.
  - reflexivity.
  - reflexivity.
  - reflexivity.
  - left. reflexivity.
Defined.

(** * Further properties *)

(** ** stdout_to_messages: what becomes of the buffered bytes *)

Lemma join_app (a b : list bytes) : join (a ++ b) = join a ++ join b.
Proof. apply concat_app. Qed.

Lemma len_cons {A} (x : A) (s : list A) : len (x :: s) = 1 + len s.
Proof. unfold len. cbn [length]. lia. Qed.

Lemma join_singleton (s : bytes) : join [s] = s.
Proof. unfold join. simpl. apply app_nil_r. Qed.

(** The loop stops at the first chunk that does not fit, with what it took
    within the limit. *)
Lemma grab_chunks_spec (buf acc : list bytes) (n : Z) :
  n <= MAX_STDOUT_PER_MSG ->
  exists consumed rest,
    buf = consumed ++ rest
    /\ grab_chunks buf acc n = (acc ++ consumed, rest)
    /\ n + total_len consumed <= MAX_STDOUT_PER_MSG
    /\ match rest with
       | [] => True
       | c :: _ => MAX_STDOUT_PER_MSG < n + total_len consumed + len c
       end.
Proof.
  revert acc n. induction buf as [|s buf IH]; intros acc n Hn.
  - exists [], []. rewrite (app_nil_r acc). simpl. repeat split; lia.
  - simpl. destruct (Z.leb_spec (len s + n) MAX_STDOUT_PER_MSG) as [Hle|Hgt].
    + destruct (IH (acc ++ [s]) (n + len s)) as (consumed & rest & -> & Hg & Hfit & Hnext);
        [lia|].
      exists (s :: consumed), rest. rewrite Hg, <- app_assoc. simpl.
      repeat split; [lia|]. destruct rest; [exact I|lia].
    + exists [], (s :: buf). rewrite (app_nil_r acc). simpl.
      repeat split; lia.
Qed.

(** The shape of a call that does not flush, above the threshold. *)
Lemma blocks_above_threshold (buf : list bytes) :
  MAX_STDOUT_PER_MSG < total_len buf ->
  exists consumed rest,
    buf = consumed ++ rest
    /\ total_len consumed <= MAX_STDOUT_PER_MSG
    /\ match rest with
       | [] => True
       | c :: _ => MAX_STDOUT_PER_MSG < total_len consumed + len c
       end
    /\ (((newline ∉ join consumed)
         /\ blocks_to_send buf false = ([join consumed], rest))
        \/ exists before after,
             join consumed = before ++ newline :: after
             /\ (newline ∉ after)
             /\ blocks_to_send buf false = ([before], rest ++ [after])).
Proof.
  intros Hbig.
  destruct (grab_chunks_spec buf [] 0) as (consumed & rest & -> & Hg & Hfit & Hnext);
    [unfold MAX_STDOUT_PER_MSG; lia|].
  cbn [app] in Hg. exists consumed, rest.
  split; [reflexivity|]. split; [lia|]. split.
  { destruct rest; [exact I|lia]. }
  destruct (Z.eq_dec (rfind (join consumed) newline) (-1)) as [Hr|Hr].
  - left. apply rfind_present in Hr. split; [exact Hr|].
    apply blocks_split_no_newline; assumption.
  - right. destruct (rfind_decompose _ _ Hr) as (before & after & Hj & Hlast).
    exists before, after. split; [exact Hj|]. split; [exact Hlast|].
    apply blocks_split_newline; assumption.
Qed.

(** X1: whatever the buffer and the flag, the bytes handed to the decoder
    and the bytes retained are the bytes of the buffer, up to their order and
    up to one newline, the one at which a split was made. *)
Theorem blocks_account_for_bytes (buf : list bytes) (flush : bool) :
  exists dropped,
    (dropped = [] \/ dropped = [newline])
    /\ join (blocks_to_send buf flush).1 ++ dropped
         ++ join (blocks_to_send buf flush).2
       ≡ₚ join buf.
Proof.
  destruct flush.
  - exists []. split; [left; reflexivity|].
    rewrite blocks_flush. cbn [fst snd]. rewrite join_singleton.
    cbn. rewrite app_nil_r. reflexivity.
  - destruct (Z.le_gt_cases (total_len buf) MAX_STDOUT_PER_MSG) as [Hle|Hgt].
    + exists []. split; [left; reflexivity|].
      rewrite (blocks_below_threshold buf Hle). reflexivity.
    + destruct (blocks_above_threshold buf Hgt)
        as (consumed & rest & -> & _ & _ & [[_ Hb]|(before & after & Hj & _ & Hb)]).
      * exists []. split; [left; reflexivity|].
        rewrite Hb. cbn [fst snd]. rewrite join_singleton, join_app. reflexivity.
      * exists [newline]. split; [right; reflexivity|].
        rewrite Hb. cbn [fst snd].
        rewrite join_singleton, !join_app, join_singleton, Hj.
        rewrite <- app_assoc. apply Permutation_app_head. cbn [app].
        apply Permutation_cons; [reflexivity|]. apply Permutation_app_comm.
Qed.

(** X2: when the call flushes, or stays below the threshold, or the buffer
    holds no newline, no byte is lost and none changes place: the blocks
    followed by the retained chunks are the buffer's content. *)
Theorem blocks_keep_order_without_split (buf : list bytes) (flush : bool) :
  flush = true
  \/ total_len buf <= MAX_STDOUT_PER_MSG
  \/ newline ∉ join buf ->
  join (blocks_to_send buf flush).1 ++ join (blocks_to_send buf flush).2
  = join buf.
Proof.
  intros Hcase. destruct flush.
  - rewrite blocks_flush. cbn [fst snd]. rewrite join_singleton.
    cbn. apply app_nil_r.
  - destruct (Z.le_gt_cases (total_len buf) MAX_STDOUT_PER_MSG) as [Hle|Hgt].
    + rewrite (blocks_below_threshold buf Hle). reflexivity.
    + destruct Hcase as [Hf|[Hle|Hnone]]; [discriminate|lia|].
      destruct (blocks_above_threshold buf Hgt)
        as (consumed & rest & -> & _ & _ & [[_ Hb]|(before & after & Hj & _ & Hb)]).
      * rewrite Hb. cbn [fst snd]. rewrite join_singleton, join_app. reflexivity.
      * exfalso. apply Hnone. rewrite join_app, Hj.
        apply elem_of_app. left. apply elem_of_app. right. left.
Qed.

Lemma blocks_keep_order_without_split_witness :
  join (blocks_to_send (replicate 17 (replicate 1024 x78)) false).1
    ++ join (blocks_to_send (replicate 17 (replicate 1024 x78)) false).2
  = join (replicate 17 (replicate 1024 x78)).
Proof.
  apply blocks_keep_order_without_split.
  right. right. by_evaluation.
Defined.

(** X3: a block cut off by size never exceeds the limit: without a flush,
    every block handed to the decoder has at most [MAX_STDOUT_PER_MSG]
    bytes. *)
Theorem unflushed_block_within_limit (buf : list bytes) :
  Forall (fun block => len block <= MAX_STDOUT_PER_MSG)
    (blocks_to_send buf false).1.
Proof.
  destruct (Z.le_gt_cases (total_len buf) MAX_STDOUT_PER_MSG) as [Hle|Hgt].
  - rewrite (blocks_below_threshold buf Hle). constructor.
  - destruct (blocks_above_threshold buf Hgt)
      as (consumed & rest & -> & Hfit & _ & [[_ Hb]|(before & after & Hj & _ & Hb)]);
      rewrite Hb; cbn [fst]; repeat constructor.
    + rewrite <- total_len_join. exact Hfit.
    + rewrite total_len_join, Hj, len_app in Hfit.
      pose proof (len_nonneg (newline :: after)). lia.
Qed.

(** X4: with reads of at most 1024 bytes, a call above the threshold makes
    progress: fewer bytes are retained than were buffered. *)
Theorem split_shrinks_buffer (buf : list bytes) :
  Forall (fun chunk => len chunk <= 1024) buf ->
  MAX_STDOUT_PER_MSG < total_len buf ->
  total_len (blocks_to_send buf false).2 < total_len buf.
Proof.
  intros Hsmall Hgt.
  destruct (blocks_above_threshold buf Hgt)
    as (consumed & rest & -> & Hfit & Hnext & Hcases).
  assert (Hpos : 0 < total_len consumed).
  { destruct rest as [|c rest].
    - rewrite app_nil_r in Hgt. lia.
    - apply Forall_app in Hsmall as [_ Hrest].
      apply Forall_cons in Hrest as [Hc _].
      unfold MAX_STDOUT_PER_MSG in *. lia. }
  rewrite total_len_app.
  destruct Hcases as [[_ Hb]|(before & after & Hj & _ & Hb)];
    rewrite Hb; cbn [snd]; [lia|].
  rewrite total_len_app. cbn [total_len foldr].
  rewrite (total_len_join consumed), Hj, len_app, len_cons.
  pose proof (len_nonneg before). lia.
Qed.

Lemma split_shrinks_buffer_witness :
  total_len (blocks_to_send buf_three_lines false).2 < total_len buf_three_lines.
Proof.
  apply split_shrinks_buffer.
  - by_evaluation.
  - reflexivity.
Defined.

(** X5: with reads of at most 1024 bytes and no newline buffered, a call
    above the threshold emits one block of more than 15 KiB and at most
    16 KiB, made of whole chunks. *)
Theorem unbroken_line_block_size (buf : list bytes) :
  Forall (fun chunk => len chunk <= 1024) buf ->
  MAX_STDOUT_PER_MSG < total_len buf ->
  newline ∉ join buf ->
  exists consumed rest,
    buf = consumed ++ rest
    /\ blocks_to_send buf false = ([join consumed], rest)
    /\ MAX_STDOUT_PER_MSG - 1024 < len (join consumed) <= MAX_STDOUT_PER_MSG.
Proof.
  intros Hsmall Hgt Hnone.
  destruct (blocks_above_threshold buf Hgt)
    as (consumed & rest & -> & Hfit & Hnext & Hcases).
  exists consumed, rest. split; [reflexivity|].
  destruct Hcases as [[_ Hb]|(before & after & Hj & _ & Hb)].
  - split; [exact Hb|]. rewrite <- total_len_join. split; [|exact Hfit].
    destruct rest as [|c rest].
    + rewrite app_nil_r in Hgt. lia.
    + apply Forall_app in Hsmall as [_ Hrest].
      apply Forall_cons in Hrest as [Hc _]. lia.
  - exfalso. apply Hnone. rewrite join_app, Hj.
    apply elem_of_app. left. apply elem_of_app. right. left.
Qed.

Lemma unbroken_line_block_size_witness :
  exists consumed rest,
    replicate 20 (replicate 1024 x78) = consumed ++ rest
    /\ blocks_to_send (replicate 20 (replicate 1024 x78)) false
       = ([join consumed], rest)
    /\ MAX_STDOUT_PER_MSG - 1024 < len (join consumed) <= MAX_STDOUT_PER_MSG.
Proof.
  apply unbroken_line_block_size.
  - by_evaluation.
  - reflexivity.
  - by_evaluation.
Defined.

(** X6: a first chunk that alone exceeds the limit is never taken: the call
    returns one empty block and leaves the buffer as it was. *)
Theorem oversized_first_chunk_stalls `{IncrementalDecoder D}
    (chunk : bytes) (rest : list bytes) (d : D) :
  MAX_STDOUT_PER_MSG < len chunk ->
  stdout_to_messages (chunk :: rest) d false
  = ([(decode d [] false).1], chunk :: rest, (decode d [] false).2).
Proof.
  intros Hbig. apply stdout_to_messages_one_block.
  unfold blocks_to_send.
  change (total_len (chunk :: rest)) with (len chunk + total_len rest).
  cbn [grab_chunks]. pose proof (total_len_nonneg rest).
  destruct (Z.ltb_spec MAX_STDOUT_PER_MSG (len chunk + total_len rest)); [|lia].
  destruct (Z.leb_spec (len chunk + 0) MAX_STDOUT_PER_MSG); [lia|].
  reflexivity.
Qed.

Lemma oversized_first_chunk_stalls_witness :
  stdout_to_messages (replicate (16 * 1024 + 1) x78 :: []) ([] : bytes) false
  = ([(decode ([] : bytes) [] false).1],
     replicate (16 * 1024 + 1) x78 :: [],
     (decode ([] : bytes) [] false).2).
Proof.
  apply oversized_first_chunk_stalls. by_evaluation.
Defined.

(** ** handle_escape_codes: what the filter removes and what it keeps *)

Section EscapeFilterMore.
Context `{UnicodeData}.

(** [re.sub] with an empty replacement only deletes. *)
Lemma sub_scan_sublist (icase : bool) (r : regex) (s : text) (skip : nat) :
  sub_scan icase r skip s `sublist_of` s.
Proof.
  revert skip. induction s as [|c s IH]; intros skip; cbn [sub_scan].
  - constructor.
  - destruct skip as [|n]; [|apply sublist_cons, IH].
    destruct (re_match icase r (c :: s)) as [[caps rest]|].
    + destruct (length (c :: s) - length rest)%nat.
      * apply sublist_skip, IH.
      * apply sublist_cons, IH.
    + apply sublist_skip, IH.
Qed.

(** Once a match is found, the scan resumes behind it. *)
Lemma sub_scan_skip (icase : bool) (r : regex) (a b : text) :
  sub_scan icase r (length a) (a ++ b) = sub_scan icase r 0 b.
Proof.
  induction a as [|c a IH]; [reflexivity|]. cbn [app length sub_scan]. exact IH.
Qed.

Lemma sub_scan_match (icase : bool) (r : regex) (c : N) (a b : text)
    (caps : list text) :
  re_match icase r (c :: a ++ b) = Some (caps, b) ->
  sub_scan icase r 0 (c :: a ++ b) = sub_scan icase r 0 b.
Proof.
  intros Hm. cbn [sub_scan]. rewrite Hm.
  replace (length (c :: a ++ b) - length b)%nat with (S (length a)).
  - apply sub_scan_skip.
  - cbn [length]. rewrite length_app. lia.
Qed.

(** A star whose item matches all of [junk] goes on behind it. *)
Lemma star_match_prefix {R} (p : N -> bool) (junk tail : text)
    (k : text -> option R) :
  Forall (fun c => p c = true) junk ->
  is_Some (star_match p tail k) ->
  star_match p (junk ++ tail) k = star_match p tail k.
Proof.
  intros Hall [x Hx]. induction Hall as [|c junk Hc _ IH]; [reflexivity|].
  cbn [app star_match]. rewrite Hc, IH, Hx. reflexivity.
Qed.

(** X7: the filter only deletes characters: its result is the input with
    some characters left out, in the same order. *)
Theorem handle_escape_codes_only_deletes (shell_out : text) :
  handle_escape_codes shell_out `sublist_of` shell_out.
Proof.
  unfold handle_escape_codes, re_sub_empty.
  etransitivity; apply sub_scan_sublist.
Qed.

(** X8: text that holds no escape character passes the filter unchanged. *)
Theorem plain_text_passes_filter (shell_out : text) :
  ESC ∉ shell_out -> handle_escape_codes shell_out = shell_out.
Proof.
  intros Hn. apply handle_escape_codes_plain, Hn.
Qed.

Lemma cleared_line_unfold (s : text) :
  re_match false cleared_line_parser s
  = star_match (class_matches false (Not (Lit 10))) s
      (fun s' =>
         run false
           (Seq (Chr (Lit ESC)) (Seq (Chr (Lit 91)) (Seq (Chr (Lit 75)) Eps)))
           s' [] (fun rest' caps => Some (caps, rest'))).
Proof. reflexivity. Qed.

(** The clear-line sequence itself, before text without escapes. *)
Lemma cleared_line_at_sequence (rest : text) :
  ESC ∉ rest ->
  star_match (class_matches false (Not (Lit 10))) ([ESC; 91; 75]%N ++ rest)
    (fun s' =>
       run false
         (Seq (Chr (Lit ESC)) (Seq (Chr (Lit 91)) (Seq (Chr (Lit 75)) Eps)))
         s' [] (fun rest' caps => Some (caps, rest')))
  = Some ([], rest).
Proof.
  intros Hn. cbn [app star_match].
  change (class_matches false (Not (Lit 10)) ESC) with true. cbn iota.
  rewrite star_match_none; [reflexivity|].
  intros s' Hs. destruct s' as [|c s']; [reflexivity|].
  cbn [run class_matches].
  rewrite (not_escape_head c s'); [reflexivity|].
  intros Hin. apply Hn. destruct Hs as [front ->].
  apply elem_of_app. right. exact Hin.
Qed.

(** X9: what stands on a line before a clear-line sequence [\x1b[K] is
    removed together with the sequence. *)
Theorem cleared_line_removed (junk rest : text) :
  10%N ∉ junk ->
  ESC ∉ rest ->
  handle_escape_codes (junk ++ [ESC; 91; 75]%N ++ rest) = rest.
Proof.
  intros Hline Hrest.
  assert (Hm : re_match false cleared_line_parser (junk ++ [ESC; 91; 75]%N ++ rest)
               = Some ([], rest)).
  { rewrite cleared_line_unfold, star_match_prefix.
    - apply cleared_line_at_sequence, Hrest.
    - apply Forall_forall. intros c Hc. cbn [class_matches].
      destruct (N.eqb_spec c 10); [subst; contradiction|reflexivity].
    - rewrite (cleared_line_at_sequence rest Hrest). eauto. }
  unfold handle_escape_codes, re_sub_empty.
  assert (Hfirst : sub_scan false cleared_line_parser 0
                     (junk ++ [ESC; 91; 75]%N ++ rest) = rest).
  { assert (Hplain : sub_scan false cleared_line_parser 0 rest = rest).
    { apply sub_scan_no_match. intros s' [front ->].
      apply cleared_line_needs_escape. intros Hin. apply Hrest.
      apply elem_of_app. right. exact Hin. }
    destruct junk as [|c junk].
    - pose proof (sub_scan_match false cleared_line_parser ESC [91; 75]%N rest [])
        as Hs.
      cbn [app] in *. rewrite (Hs Hm). exact Hplain.
    - pose proof (sub_scan_match false cleared_line_parser c
                    (junk ++ [ESC; 91; 75]%N) rest []) as Hs.
      rewrite <- app_assoc in Hs. cbn [app] in *. rewrite (Hs Hm). exact Hplain. }
  rewrite Hfirst. apply sub_scan_no_match. intros s' [front ->].
  apply escape_parser_needs_escape. intros Hin. apply Hrest.
  apply elem_of_app. right. exact Hin.
Qed.

End EscapeFilterMore.

Lemma plain_text_passes_filter_witness :
  handle_escape_codes (H := ascii_tables) (str "total 0") = str "total 0".
Proof.
  apply (plain_text_passes_filter (H := ascii_tables)). by_evaluation.
Defined.

Lemma cleared_line_removed_witness :
  handle_escape_codes (H := ascii_tables)
    (str "hello" ++ [ESC; 91; 75]%N ++ str "world")
  = str "world".
Proof.
  apply (cleared_line_removed (H := ascii_tables)); by_evaluation.
Defined.

(** ** handle_escape_codes: a control sequence between plain text *)

Section ControlSequence.
Context `{UnicodeData}.

Lemma escape_parser_head (c : N) (s : text) :
  c <> ESC -> re_match false escape_parser (c :: s) = None.
Proof.
  intros Hc. unfold re_match, escape_parser. cbn [run class_matches].
  destruct (N.eqb_spec c ESC); [contradiction|reflexivity].
Qed.

(** The scan for [escape_parser] copies text without escapes. *)
Lemma sub_scan_plain_prefix (pre t : text) :
  ESC ∉ pre ->
  sub_scan false escape_parser 0 (pre ++ t)
  = pre ++ sub_scan false escape_parser 0 t.
Proof.
  induction pre as [|c pre IH]; intros Hn; [reflexivity|].
  apply not_elem_of_cons in Hn as [Hc Hpre].
  cbn [app sub_scan]. rewrite escape_parser_head by congruence.
  rewrite IH by exact Hpre. reflexivity.
Qed.

(** A star stops at the first character that its item does not match. *)
Lemma star_match_run {R} (p : N -> bool) (params : text) (fin : N)
    (post : text) (k : text -> option R) :
  Forall (fun c => p c = true) params ->
  p fin = false ->
  is_Some (k (fin :: post)) ->
  star_match p (params ++ fin :: post) k = k (fin :: post).
Proof.
  intros Hall Hfin [x Hx]. induction Hall as [|c params Hc _ IH].
  - cbn [app star_match]. rewrite Hfin. reflexivity.
  - cbn [app star_match]. rewrite Hc, IH, Hx. reflexivity.
Qed.

Lemma suffix_app_cases {A} (a b t : list A) :
  t `suffix_of` a ++ b ->
  (exists x a', t = x :: a' ++ b /\ x ∈ a) \/ t `suffix_of` b.
Proof.
  induction a as [|y a IH]; intros Hs; [right; exact Hs|].
  cbn [app] in Hs. destruct t as [|x t].
  - right. apply suffix_nil.
  - apply suffix_cons_inv in Hs as [[= -> ->]|Hs].
    + left. exists y, a. split; [reflexivity|left].
    + destruct (IH Hs) as [(x' & a' & -> & Hin)|Hb]; [|right; exact Hb].
      left. exists x', a'. split; [reflexivity|right; exact Hin].
Qed.

Lemma param_facts (c : N) :
  is_param c ->
  c <> ESC /\ c <> 75%N /\ class_matches false (Or Digit (Lit 59)) c = true.
Proof.
  unfold is_param, ascii_digit, ESC. cbn [class_matches].
  intros [Hd| ->]; [|repeat split; discriminate].
  apply andb_true_iff in Hd as [Hlo Hhi].
  apply N.leb_le in Hlo, Hhi.
  repeat split; try lia.
  destruct (N.ltb_spec c 128); [|lia].
  unfold ascii_digit. apply orb_true_iff. left.
  apply andb_true_iff. split; apply N.leb_le; lia.
Qed.

Lemma letter_facts (c : N) :
  is_letter c ->
  c <> ESC
  /\ class_matches false (Or Digit (Lit 59)) c = false
  /\ class_matches false Word c = true.
Proof.
  unfold is_letter, ESC. cbn [class_matches]. intros Hl.
  assert (Hr : (65 <= c <= 90 \/ 97 <= c <= 122)%N).
  { pose proof Hl as Hl'. unfold is_upper, is_lower in Hl'.
    apply orb_true_iff in Hl' as [Hl'|Hl'];
      apply andb_true_iff in Hl' as [Hlo Hhi];
      apply N.leb_le in Hlo, Hhi; lia. }
  destruct (N.ltb_spec c 128); [|lia].
  split; [lia|]. split.
  - apply orb_false_iff. split.
    + unfold ascii_digit. apply andb_false_iff. right. apply N.leb_gt. lia.
    + apply N.eqb_neq. lia.
  - unfold ascii_word. destruct (ascii_digit c); [reflexivity|].
    cbn [orb]. rewrite Hl. reflexivity.
Qed.

(** The sequence is found and taken whole. *)
Lemma escape_parser_takes_sequence (params : text) (fin : N) (post : text) :
  Forall is_param params ->
  is_letter fin ->
  exists caps,
    re_match false escape_parser ([ESC; 91%N] ++ params ++ fin :: post)
    = Some (caps, post).
Proof.
  intros Hparams Hfin.
  destruct (letter_facts fin Hfin) as (_ & Hnp & Hw).
  unfold re_match, escape_parser. cbn [app run].
  change (class_matches false (Lit ESC) ESC) with true.
  change (class_matches false (Lit 91) 91%N) with true. cbn iota.
  rewrite star_match_run.
  - cbn [run]. rewrite Hw. eauto.
  - eapply Forall_impl; [exact Hparams|]. intros c Hc. apply param_facts, Hc.
  - exact Hnp.
  - cbn [run]. rewrite Hw. eauto.
Qed.

(** Nowhere in the text does a clear-line sequence start. *)
Lemma no_clear_line_sequence (pre params : text) (fin : N) (post t : text) :
  ESC ∉ pre ->
  Forall is_param params ->
  is_letter fin ->
  params <> [] \/ fin <> 75%N ->
  ESC ∉ post ->
  t `suffix_of` pre ++ [ESC; 91%N] ++ params ++ fin :: post ->
  run false
    (Seq (Chr (Lit ESC)) (Seq (Chr (Lit 91)) (Seq (Chr (Lit 75)) Eps)))
    t [] (fun rest' caps => Some (caps, rest'))
  = None.
Proof.
  intros Hpre Hparams Hfin Hnot Hpost Hs.
  assert (Htail : ESC ∉ params ++ fin :: post).
  { intros Hin. apply elem_of_app in Hin as [Hin|Hin].
    - pose proof (proj1 (Forall_forall _ _) Hparams _ Hin) as Hp.
      destruct (param_facts _ Hp) as (Hne & _). apply Hne. reflexivity.
    - apply elem_of_cons in Hin as [Hin|Hin]; [|contradiction].
      destruct (letter_facts fin Hfin) as (Hne & _). apply Hne.
      symmetry. exact Hin. }
  assert (Hhead : forall c s, ESC ∉ c :: s ->
            run false
              (Seq (Chr (Lit ESC)) (Seq (Chr (Lit 91)) (Seq (Chr (Lit 75)) Eps)))
              (c :: s) [] (fun rest' caps => Some (caps, rest')) = None).
  { intros c s Hn. cbn [run class_matches].
    rewrite (not_escape_head c s Hn). reflexivity. }
  apply suffix_app_cases in Hs as [(x & a' & -> & Hin)|Hs].
  - cbn [run class_matches].
    destruct (N.eqb_spec x ESC) as [->|]; [contradiction|reflexivity].
  - destruct t as [|c t]; [reflexivity|]. cbn [app] in Hs.
    apply suffix_cons_inv in Hs as [[= -> ->]|Hs].
    + cbn [run class_matches].
      change ((ESC =? ESC)%N) with true. change ((91 =? 91)%N) with true.
      cbn iota. destruct params as [|p params].
      * cbn [app]. destruct Hnot as [Hnot|Hnot]; [congruence|].
        destruct (N.eqb_spec fin 75); [contradiction|reflexivity].
      * cbn [app]. apply Forall_cons in Hparams as [Hp _].
        destruct (param_facts p Hp) as (_ & Hk & _).
        destruct (N.eqb_spec p 75); [contradiction|reflexivity].
    + apply suffix_cons_inv in Hs as [[= -> ->]|Hs]; [reflexivity|].
      apply Hhead. intros Hin. apply Htail. destruct Hs as [front ->].
      apply elem_of_app. right. exact Hin.
Qed.

(** X10: a control sequence [\x1b[], parameters of digits and semicolons,
    and a final letter, between texts without escape characters, is removed
    and nothing else is, unless it is the clear-line sequence. *)
Theorem control_sequence_removed (pre params : text) (fin : N) (post : text) :
  ESC ∉ pre ->
  Forall is_param params ->
  is_letter fin ->
  params <> [] \/ fin <> 75%N ->
  ESC ∉ post ->
  handle_escape_codes (pre ++ [ESC; 91%N] ++ params ++ fin :: post)
  = pre ++ post.
Proof.
  intros Hpre Hparams Hfin Hnot Hpost.
  unfold handle_escape_codes, re_sub_empty.
  rewrite (sub_scan_no_match cleared_line_parser).
  - rewrite (sub_scan_plain_prefix pre _ Hpre). f_equal.
    destruct (escape_parser_takes_sequence params fin post Hparams Hfin)
      as [caps Hm].
    pose proof (sub_scan_match false escape_parser ESC
                  ([91%N] ++ params ++ [fin]) post caps) as Hs.
    rewrite <- !app_assoc in Hs. cbn [app] in *. rewrite (Hs Hm).
    apply sub_scan_no_match. intros s' [front ->].
    apply escape_parser_needs_escape. intros Hin. apply Hpost.
    apply elem_of_app. right. exact Hin.
  - intros s' Hs'. rewrite cleared_line_unfold. apply star_match_none.
    intros t Ht.
    apply (no_clear_line_sequence pre params fin post t); try assumption.
    etransitivity; eassumption.
Qed.

End ControlSequence.

Lemma control_sequence_removed_witness :
  handle_escape_codes (H := ascii_tables)
    (str "a" ++ [ESC; 91%N] ++ str "1;32" ++ 109%N :: str "b")
  = str "a" ++ str "b".
Proof.
  apply (control_sequence_removed (H := ascii_tables)).
  - by_evaluation.
  - repeat (constructor; [first [left; reflexivity|right; reflexivity]|]).
    constructor.
  - reflexivity.
  - left. discriminate.
  - by_evaluation.
Defined.

(** ** on_message: what can reach the shell *)

Section InputRouterMore.
Context `{UnicodeData}.

Lemma bang_only_matches_bang (c : N) :
  c <> 33%N -> class_matches true (Lit 33) c = false.
Proof.
  intros Hc. cbn [class_matches]. unfold lit_matches_icase.
  change (ascii_lower 33) with 33%N. cbn [N.eqb andb orb].
  rewrite !orb_false_r. apply N.eqb_neq.
  unfold ascii_lower, is_upper.
  destruct ((65 <=? c)%N && (c <=? 90)%N) eqn:Hu; [|exact Hc].
  apply andb_true_iff in Hu as [Hlo _]. apply N.leb_le in Hlo. lia.
Qed.

(** Both command patterns start with [!]. *)
Lemma commands_start_with_bang (message : text) :
  head message <> Some 33%N ->
  re_match true CTRLC_CMD_REGEX message = None
  /\ re_match true SHELL_CMD_REGEX message = None.
Proof.
  intros Hhead. unfold re_match, CTRLC_CMD_REGEX, SHELL_CMD_REGEX, literal.
  destruct message as [|c message]; [split; reflexivity|].
  assert (Hc : c <> 33%N) by (intros ->; apply Hhead; reflexivity).
  cbn [str list_ascii_of_string map foldr run].
  change (N_of_ascii "!") with 33%N.
  rewrite (bang_only_matches_bang c Hc). split; reflexivity.
Qed.

(** A literal pattern hands its continuation what follows the literal, and
    the groups as they were. *)
Lemma run_literal_inv {R} (lit s : text) (caps : list text)
    (k : text -> list text -> option R) (x : R) :
  run true (foldr (fun c r => Seq (Chr (Lit c)) r) Eps lit) s caps k = Some x ->
  exists s', k s' caps = Some x.
Proof.
  revert s. induction lit as [|p lit IH]; intros s Hr; cbn [foldr run] in Hr.
  - eauto.
  - destruct s as [|c s]; [discriminate|].
    destruct (class_matches true (Lit p) c); [|discriminate].
    apply (IH s Hr).
Qed.

(** What a star takes matches its item throughout. *)
Lemma star_match_inv {R} (p : N -> bool) (s : text) (k : text -> option R)
    (x : R) :
  star_match p s k = Some x ->
  exists a b, s = a ++ b /\ Forall (fun c => p c = true) a /\ k b = Some x.
Proof.
  induction s as [|c s IH]; cbn [star_match]; intros Hs.
  - exists [], []. repeat split; [constructor|exact Hs].
  - destruct (p c) eqn:Hc.
    + destruct (star_match p s k) as [r|] eqn:Hin.
      * injection Hs as ->. destruct (IH eq_refl) as (a & b & -> & Ha & Hk).
        exists (c :: a), b. repeat split; [constructor; assumption|exact Hk].
      * exists [], (c :: s). repeat split; [constructor|exact Hs].
    + exists [], (c :: s). repeat split; [constructor|exact Hs].
Qed.

(** The group of [SHELL_CMD_REGEX] never holds a newline. *)
Lemma shell_group_is_one_line (message : text) (m : list text * text) :
  re_match true SHELL_CMD_REGEX message = Some m ->
  10%N ∉ group m 1.
Proof.
  unfold re_match, SHELL_CMD_REGEX, literal. cbn [run]. intros Hr.
  apply run_literal_inv in Hr as [s' Hr]. cbn [run] in Hr.
  apply star_match_inv in Hr as (a & b & -> & Ha & Hk).
  injection Hk as <-. unfold group. cbn [fst Nat.pred app lookup].
  rewrite length_app.
  replace (length a + length b - length b)%nat with (length a) by lia.
  rewrite take_app_length. cbn.
  intros Hin. rewrite Forall_forall in Ha. specialize (Ha _ Hin).
  discriminate.
Qed.


(** X11: a plain-text event from an allowed sender that has no [body]
    raises [KeyError]; nothing is written. *)
Theorem missing_body_raises (ev : event) (allowed_users : list text)
    (w : world) :
  sender ev ∈ allowed_users ->
  content ev !! "msgtype" = Some (VStr (str "m.text")) ->
  content ev !! "body" = None ->
  on_message ev allowed_users w = KeyError "body".
Proof.
  intros Hin Hty Hbody. unfold on_message.
  rewrite (bool_decide_eq_true_2 _ Hin), Hty, Hbody.
  assert (Htext : is_str (VStr (str "m.text")) "m.text" = true) by by_evaluation.
  rewrite Htext. reflexivity.
Qed.

(** X12: a message whose body does not start with [!] is no command,
    whoever sends it: nothing is written and nothing is logged. *)
Theorem ordinary_message_ignored (ev : event) (allowed_users : list text)
    (w : world) (b : pyval) :
  content ev !! "body" = Some b ->
  head (py_str b) <> Some 33%N ->
  on_message ev allowed_users w = Returns w.
Proof.
  intros Hbody Hhead. unfold on_message. rewrite Hbody.
  destruct (commands_start_with_bang (py_str b) Hhead) as [-> ->].
  destruct (_ && _); reflexivity.
Qed.


(** X14: whatever the event, a call that returns has either changed
    nothing, or has flushed what it wrote, which is the interrupt character
    alone or one line closed by the only newline in it. *)
Theorem on_message_writes_one_line (ev : event) (allowed_users : list text)
    (w w' : world) :
  on_message ev allowed_users w = Returns w' ->
  w' = w
  \/ (pending (pin w') = []
      /\ exists written,
           delivered (pin w')
           = delivered (pin w) ++ pending (pin w) ++ written
           /\ (written = [3%N]
               \/ exists line, written = line ++ [10%N] /\ 10%N ∉ line)).
Proof.
  intros Hrun. unfold on_message in Hrun.
  destruct (_ && _); [|left; congruence].
  destruct (content ev !! "body") as [b|]; [|discriminate].
  destruct (re_match true CTRLC_CMD_REGEX (py_str b)) as [m|].
  - right. injection Hrun as <-. cbn. split; [reflexivity|].
    exists [3%N]. split; [|left; reflexivity].
    rewrite <- ?app_assoc. reflexivity.
  - destruct (re_match true SHELL_CMD_REGEX (py_str b)) as [m|] eqn:Hm;
      [|left; congruence].
    right. injection Hrun as <-. cbn. split; [reflexivity|].
    exists (group m 1 ++ [10%N]). split.
    + rewrite <- ?app_assoc. reflexivity.
    + right. exists (group m 1). split; [reflexivity|].
      apply (shell_group_is_one_line _ _ Hm).
Qed.

End InputRouterMore.

Lemma missing_body_raises_witness :
  on_message (H := ascii_tables)
    {| sender := str "@op:example.org";
       content := {[ "msgtype" := VStr (str "m.text") ]} |}
    [str "@op:example.org"] quiet = KeyError "body".
Proof.
  apply (missing_body_raises (H := ascii_tables)).
  - by_evaluation.
  - reflexivity.
  - reflexivity.
Defined.

Lemma ordinary_message_ignored_witness :
  on_message (H := ascii_tables)
    (text_event (str "@op:example.org") (str "shell echo hi"))
    [str "@op:example.org"] quiet = Returns quiet.
Proof.
  apply (ordinary_message_ignored (H := ascii_tables) _ _ _
           (VStr (str "shell echo hi"))).
  - reflexivity.
  - discriminate.
Defined.


Lemma on_message_writes_one_line_witness :
  exists w',
    on_message (H := ascii_tables)
      (text_event (str "@op:example.org") (str "!ctrlc"))
      [str "@op:example.org"] quiet = Returns w'
    /\ (w' = quiet
        \/ (pending (pin w') = []
            /\ exists written,
                 delivered (pin w')
                 = delivered (pin quiet) ++ pending (pin quiet) ++ written
                 /\ (written = [3%N]
                     \/ exists line,
                          written = line ++ [10%N] /\ (10%N ∉ line)))).
Proof.
  eexists. split; [reflexivity|].
  apply (on_message_writes_one_line (H := ascii_tables)
           (text_event (str "@op:example.org") (str "!ctrlc"))
           [str "@op:example.org"]).
  reflexivity.
Defined.

(** ** get_inviter and on_invite *)

Lemma get_inviter_no_match (events : list state_event) (uid : text) :
  Forall (fun e => names_invitee e uid = Returns false) events ->
  get_inviter events uid = (events, Returns None).
Proof.
  induction 1 as [|e events He _ IH]; cbn [get_inviter]; [reflexivity|].
  rewrite He, IH. reflexivity.
Qed.

Lemma get_inviter_first_match (skipped later : list state_event)
    (e : state_event) (uid : text) (v : pyval) :
  Forall (fun e' => names_invitee e' uid = Returns false) skipped ->
  names_invitee e uid = Returns true ->
  fields e !! "sender" = Some v ->
  get_inviter (skipped ++ e :: later) uid = (skipped ++ [e], Returns (Some v)).
Proof.
  intros Hskip He Hs.
  induction Hskip as [|e' skipped He' _ IH]; cbn [app get_inviter].
  - rewrite He. unfold getitem. rewrite Hs. reflexivity.
  - rewrite He', IH. reflexivity.
Qed.

(** The inviter that [get_inviter] returns is the sender of one of the
    events. *)
Lemma get_inviter_sender (events logged : list state_event) (uid : text)
    (v : pyval) :
  get_inviter events uid = (logged, Returns (Some v)) ->
  exists e, e ∈ events /\ fields e !! "sender" = Some v.
Proof.
  revert logged. induction events as [|e events IH]; intros logged;
    cbn [get_inviter]; [discriminate|].
  destruct (names_invitee e uid) as [[|]|k]; [| |discriminate].
  - unfold getitem. destruct (fields e !! "sender") as [s|] eqn:Hs;
      [|discriminate].
    intros [= <- <-]. exists e. split; [left|exact Hs].
  - destruct (get_inviter events uid) as [logged' r] eqn:Hg.
    intros [= <- ->]. destruct (IH _ eq_refl) as (e' & Hin & Hs).
    exists e'. split; [right; exact Hin|exact Hs].
Qed.

(** X15: when no event of the invite state was sent by an allowed user,
    [on_invite] does not join, whatever the events are: it returns with the
    client as it was, or raises [KeyError] on an event that lacks a key. *)
Theorem stranger_invite_never_joins (c : client) (room_id : string)
    (state : list state_event) (allowed_users : list text) :
  (forall e s, e ∈ state -> fields e !! "sender" = Some (VStr s) ->
               s ∉ allowed_users) ->
  (on_invite c room_id state allowed_users).2 = Returns c
  \/ exists key, (on_invite c room_id state allowed_users).2 = KeyError key.
Proof.
  intros Hstrangers. unfold on_invite.
  destruct (get_inviter state (user_id c)) as [logged [inviter|k]] eqn:Hg;
    [|right; eauto].
  destruct (inviter_allowed inviter allowed_users) eqn:Ha;
    cbn [snd]; [|left; reflexivity].
  exfalso. destruct inviter as [[s|shown]|]; try discriminate.
  destruct (get_inviter_sender _ _ _ _ Hg) as (e & Hin & Hs).
  cbn [inviter_allowed] in Ha. apply bool_decide_eq_true_1 in Ha.
  exact (Hstrangers e s Hin Hs Ha).
Qed.

(** X16: the first event that names the bot as invitee decides: the events
    behind it are not looked at, and the room is joined exactly when the
    sender of that event is allowed. *)
Theorem first_invitation_decides (c : client) (room_id : string)
    (skipped later : list state_event) (e : state_event)
    (allowed_users : list text) (v : pyval) :
  Forall (fun e' => names_invitee e' (user_id c) = Returns false) skipped ->
  names_invitee e (user_id c) = Returns true ->
  fields e !! "sender" = Some v ->
  on_invite c room_id (skipped ++ e :: later) allowed_users
  = (skipped ++ [e],
     Returns (if inviter_allowed (Some v) allowed_users
              then join_room c room_id else c)).
Proof.
  intros Hskip He Hs. unfold on_invite.
  rewrite (get_inviter_first_match skipped later e (user_id c) v Hskip He Hs).
  destruct (inviter_allowed (Some v) allowed_users); reflexivity.
Qed.

(** X17: an invite state in which no event names the bot as invitee, the
    empty one included, is read to its end and no room is joined. *)
Theorem no_invitation_no_join (c : client) (room_id : string)
    (state : list state_event) (allowed_users : list text) :
  Forall (fun e => names_invitee e (user_id c) = Returns false) state ->
  on_invite c room_id state allowed_users = (state, Returns c).
Proof.
  intros Hnone. unfold on_invite.
  rewrite (get_inviter_no_match state (user_id c) Hnone). reflexivity.
Qed.

Lemma stranger_invite_never_joins_witness :
  (on_invite bot "!ops:example.org"
     [invitation (str "@guest:example.org") (str "@bot:example.org")]
     [str "@op:example.org"]).2 = Returns bot
  \/ exists key,
       (on_invite bot "!ops:example.org"
          [invitation (str "@guest:example.org") (str "@bot:example.org")]
          [str "@op:example.org"]).2 = KeyError key.
Proof.
  apply stranger_invite_never_joins.
  intros e s Hin Hs. apply list_elem_of_singleton in Hin. subst e.
  vm_compute in Hs. injection Hs as <-. by_evaluation.
Defined.

Lemma first_invitation_decides_witness :
  on_invite bot "!ops:example.org"
    ([room_name_event (str "@op:example.org")]
       ++ invitation (str "@guest:example.org") (str "@bot:example.org")
       :: [invitation (str "@op:example.org") (str "@bot:example.org")])
    [str "@op:example.org"]
  = ([room_name_event (str "@op:example.org")]
       ++ [invitation (str "@guest:example.org") (str "@bot:example.org")],
     Returns (if inviter_allowed (Some (VStr (str "@guest:example.org")))
                   [str "@op:example.org"]
              then join_room bot "!ops:example.org" else bot)).
Proof.
  apply first_invitation_decides.
  - repeat constructor.
  - reflexivity.
  - reflexivity.
Defined.

Lemma no_invitation_no_join_witness :
  on_invite bot "!ops:example.org"
    [room_name_event (str "@op:example.org");
     invitation (str "@op:example.org") (str "@other:example.org")]
    [str "@op:example.org"]
  = ([room_name_event (str "@op:example.org");
      invitation (str "@op:example.org") (str "@other:example.org")],
     Returns bot).
Proof.
  apply no_invitation_no_join. repeat constructor.
Defined.

(** ** The listening loop of run_bot *)

Lemma listen_loop_recoverable (exits : list listen_exit) (s : supervisor) :
  Forall (fun e => recoverable e = true) exits ->
  (listen_loop exits s).2 = Listening
  /\ stop (listen_loop exits s).1 = stop s
  /\ slept (listen_loop exits s).1
     = slept s + 5 * len (filter (fun e => transient e = true) exits).
Proof.
  intros Hrec. revert s.
  induction Hrec as [|e exits He _ IH]; intros s.
  - cbn [listen_loop fst snd]. rewrite filter_nil.
    change (len []) with 0. repeat split. lia.
  - destruct e; try discriminate; cbn [listen_loop].
    + destruct (IH s) as (IH1 & IH2 & IH3).
      repeat split; [exact IH1|exact IH2|].
      rewrite IH3, filter_cons_False by (cbn; congruence). reflexivity.
    + destruct (IH {| stop := stop s; slept := slept s + 5;
                      warned := S (warned s) |}) as (IH1 & IH2 & IH3).
      repeat split; [exact IH1|exact IH2|].
      rewrite IH3, filter_cons_True by reflexivity.
      rewrite len_cons. cbn [slept]. lia.
    + destruct (IH {| stop := stop s; slept := slept s + 5;
                      warned := S (S (warned s)) |}) as (IH1 & IH2 & IH3).
      repeat split; [exact IH1|exact IH2|].
      rewrite IH3, filter_cons_True by reflexivity.
      rewrite len_cons. cbn [slept]. lia.
Qed.


(** X18: timeouts, connection errors and plain returns of
    [listen_forever] never end the loop: after any number of them it is
    still listening, [stop] is as it was, and it has slept five seconds for
    each timeout or connection error. *)
Theorem transient_failures_are_retried (exits : list listen_exit)
    (s : supervisor) :
  Forall (fun e => recoverable e = true) exits ->
  (listen_loop exits s).2 = Listening
  /\ stop (listen_loop exits s).1 = stop s
  /\ slept (listen_loop exits s).1
     = slept s + 5 * len (filter (fun e => transient e = true) exits).
Proof. apply listen_loop_recoverable. Qed.


(** X20: the loop only ever exits with code 0, and [stop] is set exactly
    by that exit: an exception that is not caught leaves [stop] as it was. *)
Theorem stop_set_only_on_exit (exits : list listen_exit) (s : supervisor) :
  match (listen_loop exits s).2 with
  | Exits code => code = 0 /\ stop (listen_loop exits s).1 = true
  | Propagates | Listening => stop (listen_loop exits s).1 = stop s
  end.
Proof.
  revert s. induction exits as [|e exits IH]; intros s; [reflexivity|].
  destruct e; cbn [listen_loop].
  - apply IH.
  - split; reflexivity.
  - specialize (IH {| stop := stop s; slept := slept s + 5;
                      warned := S (warned s) |}).
    destruct (listen_loop exits _) as [s' []]; exact IH.
  - specialize (IH {| stop := stop s; slept := slept s + 5;
                      warned := S (S (warned s)) |}).
    destruct (listen_loop exits _) as [s' []]; exact IH.
  - reflexivity.
Qed.

Lemma transient_failures_are_retried_witness :
  (listen_loop [RequestsTimeout; ListenReturns; RequestsConnectionError]
     {| stop := false; slept := 0; warned := 0 |}).2 = Listening
  /\ stop (listen_loop [RequestsTimeout; ListenReturns; RequestsConnectionError]
             {| stop := false; slept := 0; warned := 0 |}).1
     = stop {| stop := false; slept := 0; warned := 0 |}
  /\ slept (listen_loop [RequestsTimeout; ListenReturns; RequestsConnectionError]
              {| stop := false; slept := 0; warned := 0 |}).1
     = slept {| stop := false; slept := 0; warned := 0 |}
       + 5 * len (filter (fun e => transient e = true)
                    [RequestsTimeout; ListenReturns; RequestsConnectionError]).
Proof.
  apply transient_failures_are_retried. repeat constructor.
Defined.


(** ** shell_stdout_handler: what the relay sends and what it keeps *)

Lemma blocks_at_most_one (buf : list bytes) (flush : bool) :
  (blocks_to_send buf flush).1 = []
  \/ exists block, (blocks_to_send buf flush).1 = [block].
Proof.
  unfold blocks_to_send. destruct flush; [right; eauto|].
  destruct (MAX_STDOUT_PER_MSG <? total_len buf); [|left; reflexivity].
  destruct (grab_chunks buf [] 0) as [sent rest].
  destruct (negb _); right; eauto.
Qed.

Lemma messages_at_most_one `{IncrementalDecoder D} (buf : list bytes) (d : D)
    (flush : bool) :
  (stdout_to_messages buf d flush).1.1 = []
  \/ exists t, (stdout_to_messages buf d flush).1.1 = [t].
Proof.
  unfold stdout_to_messages.
  destruct (blocks_at_most_one buf flush) as [Hb|[block Hb]];
    destruct (blocks_to_send buf flush) as [blocks buf']; cbn [fst] in Hb; subst.
  - left. reflexivity.
  - right. cbn [decode_blocks]. destruct (decode d block false) as [t d'].
    eauto.
Qed.

Section OutputRelayMore.
Context `{UnicodeData}.

Lemma send_block_shape (rs : list string) (shell_out : text) :
  send_block rs shell_out
  = map (fun r => {| room := r;
                     html := preformatted (strip_cr (handle_escape_codes shell_out));
                     body := strip_cr (handle_escape_codes shell_out) |}) rs.
Proof. reflexivity. Qed.

Lemma strip_cr_clean (t : text) : 13%N ∉ strip_cr t.
Proof.
  unfold strip_cr. intros Hin. apply list_elem_of_filter in Hin as [Hne _].
  apply Hne. reflexivity.
Qed.

Lemma send_block_wellformed (rs : list string) (shell_out : text) :
  Forall (fun m => (13%N ∉ body m) /\ html m = preformatted (body m))
    (send_block rs shell_out).
Proof.
  rewrite send_block_shape. apply Forall_forall. intros m Hin.
  apply list_elem_of_In, in_map_iff in Hin as (r & <- & _). cbn [body html].
  split; [apply strip_cr_clean|reflexivity].
Qed.

Lemma relay_messages_wellformed (t : tick) (more : bool) (st : relay) :
  Forall (fun m => (13%N ∉ body m) /\ html m = preformatted (body m))
    (relay_messages t more st).2.
Proof.
  unfold relay_messages.
  destruct (buf st) as [|c chunks]; [constructor|].
  destruct (rooms t) as [|r rs]; [constructor|].
  destruct (stdout_to_messages (c :: chunks) (decoder st) (negb more))
    as [[msgs buf'] d']. cbn [snd].
  induction msgs as [|msg msgs IH]; cbn [flat_map]; [constructor|].
  apply Forall_app. split; [apply send_block_wellformed|exact IH].
Qed.

Lemma relay_iteration_wellformed (t : tick) (st st' : relay) (out : list sent) :
  relay_iteration t st = Continue st' out ->
  Forall (fun m => (13%N ∉ body m) /\ html m = preformatted (body m)) out.
Proof.
  unfold relay_iteration.
  destruct (select_ready t) as [[chunk|]|]; [| discriminate |].
  - destruct (py_eq _ _); [discriminate|].
    pose proof (relay_messages_wellformed t true
                  {| buf := buf st ++ [chunk]; decoder := decoder st |}) as Hw.
    destruct (relay_messages t true _) as [st1 out1].
    intros [= <- <-]. exact Hw.
  - pose proof (relay_messages_wellformed t false st) as Hw.
    destruct (relay_messages t false st) as [st1 out1].
    intros [= <- <-]. exact Hw.
Qed.

(** X21: in every run of the relay, every message sent has a body without
    carriage return, and its markup is the body between [<pre><code>] and
    [</code></pre>]. *)
Theorem sent_messages_wellformed (ticks : list tick) (st : relay) :
  Forall (fun m => (13%N ∉ body m) /\ html m = preformatted (body m))
    (relay_loop ticks st).1.1.
Proof.
  revert st. induction ticks as [|t ticks IH]; intros st; cbn [relay_loop].
  - constructor.
  - destruct (stop_is_set t); [constructor|].
    destruct (relay_iteration t st) as [st' out| |] eqn:Hit;
      [|constructor|constructor].
    specialize (IH st'). destruct (relay_loop ticks st') as [[out' st''] e].
    cbn [fst] in *. apply Forall_app. split; [|exact IH].
    apply (relay_iteration_wellformed t st st' out Hit).
Qed.

(** X22: while the bot is in no room, nothing is sent and nothing is
    dropped: every chunk read is appended to the buffer, in order, and the
    decoder is not touched. *)
Theorem output_held_back_without_rooms (ticks : list tick) (st : relay) :
  Forall (fun t => stop_is_set t = false
                   /\ rooms t = []
                   /\ select_ready t <> Some ReadRaises) ticks ->
  relay_loop ticks st
  = ([], {| buf := buf st ++ chunks_read ticks; decoder := decoder st |},
     Running).
Proof.
  intros Hall. revert st.
  induction Hall as [|t ticks (Hstop & Hrooms & Hread) _ IH]; intros st.
  - cbn [relay_loop chunks_read flat_map]. rewrite app_nil_r.
    destruct st; reflexivity.
  - cbn [relay_loop chunks_read flat_map]. rewrite Hstop.
    unfold relay_iteration, relay_messages. rewrite Hrooms.
    destruct (select_ready t) as [[chunk|]|]; [|congruence|].
    + cbn [py_eq buf decoder].
      destruct (buf st ++ [chunk]) as [|c chunks] eqn:Hb.
      * apply app_eq_nil in Hb as [_ Hb]. discriminate.
      * rewrite <- Hb. rewrite IH. cbn [buf decoder app].
        rewrite <- app_assoc. reflexivity.
    + destruct (buf st) as [|c chunks] eqn:Hb;
        rewrite IH; cbn [app]; rewrite Hb; reflexivity.
Qed.

(** X23: a pass that finds the pty idle while the bot is in a room leaves
    the buffer empty, whatever it held. *)
Theorem idle_pass_empties_buffer (rs : list string) (st : relay) :
  rs <> [] ->
  exists st' out,
    relay_iteration (idle rs) st = Continue st' out /\ buf st' = [].
Proof.
  intros Hrs. destruct (buf st) as [|c chunks] eqn:Hb.
  - exists st, []. split; [|exact Hb].
    unfold relay_iteration, relay_messages. cbn [select_ready idle].
    rewrite Hb. reflexivity.
  - eexists _, _. split; [apply relay_idle_flush|reflexivity].
    + rewrite Hb. discriminate.
    + exact Hrs.
Qed.

(** X24: a pass that reads a chunk with which the buffer stays within the
    limit sends nothing: it only appends the chunk. *)
Theorem read_within_limit_sends_nothing (t : tick) (chunk : bytes)
    (st : relay) :
  select_ready t = Some (ReadBytes chunk) ->
  total_len (buf st) + len chunk <= MAX_STDOUT_PER_MSG ->
  relay_iteration t st
  = Continue {| buf := buf st ++ [chunk]; decoder := decoder st |} [].
Proof.
  intros Hread Hfit. unfold relay_iteration, relay_messages. rewrite Hread.
  cbn [py_eq buf decoder].
  destruct (buf st ++ [chunk]) as [|c chunks] eqn:Hb.
  - apply app_eq_nil in Hb as [_ Hb]. discriminate.
  - destruct (rooms t) as [|r rs]; [reflexivity|].
    rewrite <- Hb. unfold stdout_to_messages. cbn [negb].
    rewrite blocks_below_threshold; [reflexivity|].
    rewrite total_len_app. cbn [total_len foldr]. lia.
Qed.

(** X25: one pass sends at most one text, and sends it to every room once,
    in the order of the rooms. *)
Theorem pass_sends_one_text_to_all_rooms (t : tick) (st st' : relay)
    (out : list sent) :
  relay_iteration t st = Continue st' out ->
  out = []
  \/ exists txt,
       out = map (fun r => {| room := r; html := preformatted txt;
                              body := txt |}) (rooms t).
Proof.
  assert (Hm : forall more st0,
             (relay_messages t more st0).2 = []
             \/ exists txt,
                  (relay_messages t more st0).2
                  = map (fun r => {| room := r; html := preformatted txt;
                                     body := txt |}) (rooms t)).
  { intros more st0. unfold relay_messages.
    destruct (buf st0) as [|c chunks]; [left; reflexivity|].
    destruct (rooms t) as [|r rs] eqn:Hr; [left; reflexivity|].
    destruct (messages_at_most_one (c :: chunks) (decoder st0) (negb more))
      as [Hnone|[msg Hone]];
      destruct (stdout_to_messages (c :: chunks) (decoder st0) (negb more))
        as [[msgs buf'] d']; cbn [fst snd] in *; subst msgs.
    - left. reflexivity.
    - right. eexists. cbn [flat_map]. rewrite app_nil_r.
      rewrite send_block_shape. reflexivity. }
  unfold relay_iteration.
  destruct (select_ready t) as [[chunk|]|]; [| discriminate |].
  - destruct (py_eq _ _); [discriminate|].
    specialize (Hm true {| buf := buf st ++ [chunk]; decoder := decoder st |}).
    destruct (relay_messages t true _) as [st1 out1].
    intros [= <- <-]. exact Hm.
  - specialize (Hm false st).
    destruct (relay_messages t false st) as [st1 out1].
    intros [= <- <-]. exact Hm.
Qed.

End OutputRelayMore.

Lemma output_held_back_without_rooms_witness :
  relay_loop (H := ascii_tables) [reads [x68; x69] []; idle []; reads [x0a] []]
    fresh
  = ([], {| buf := buf fresh
                     ++ chunks_read [reads [x68; x69] []; idle [];
                                     reads [x0a] []];
            decoder := decoder fresh |},
     Running).
Proof.
  apply (output_held_back_without_rooms (H := ascii_tables)).
  repeat constructor; discriminate.
Defined.

Lemma idle_pass_empties_buffer_witness :
  exists st' out,
    relay_iteration (H := ascii_tables) (idle ["!room:example.org"%string])
      {| buf := [[x68; x69]]; decoder := [] |} = Continue st' out
    /\ buf st' = [].
Proof.
  apply (idle_pass_empties_buffer (H := ascii_tables)). discriminate.
Defined.

Lemma read_within_limit_sends_nothing_witness :
  relay_iteration (H := ascii_tables)
    (reads [x68; x69] ["!room:example.org"%string]) fresh
  = Continue {| buf := buf fresh ++ [[x68; x69]]; decoder := decoder fresh |} [].
Proof.
  apply (read_within_limit_sends_nothing (H := ascii_tables)).
  - reflexivity.
  - by_evaluation.
Defined.

Lemma pass_sends_one_text_to_all_rooms_witness :
  exists st' out,
    relay_iteration (H := ascii_tables)
      (idle ["!a:example.org"; "!b:example.org"]%string)
      {| buf := [[x68; x69]]; decoder := [] |} = Continue st' out
    /\ (out = []
        \/ exists txt,
             out = map (fun r => {| room := r; html := preformatted txt;
                                    body := txt |})
                     (rooms (idle ["!a:example.org"; "!b:example.org"]%string))).
Proof.
  eexists _, _. split; [reflexivity|].
  apply (pass_sends_one_text_to_all_rooms (H := ascii_tables)
           (idle ["!a:example.org"; "!b:example.org"]%string)
           {| buf := [[x68; x69]]; decoder := [] |}
           {| buf := []; decoder := [] |}).
  reflexivity.
Defined.

(** ** handle_escape_codes: when a second pass changes nothing *)

Section SecondPass.
Context `{UnicodeData}.

(** What a pattern leaves for its continuation is an end of the text. *)
Lemma run_rest_suffix {R} (icase : bool) (r : regex) :
  forall (s : text) (caps : list text) (k : text -> list text -> option R)
         (x : R),
    run icase r s caps k = Some x ->
    exists s' caps', s' `suffix_of` s /\ k s' caps' = Some x.
Proof.
  induction r as [cc| |r1 IH1 r2 IH2|r1 IH1 r2 IH2|r1 IH1|cc|r1 IH1];
    intros s caps k x Hr; cbn [run] in Hr.
  - destruct s as [|c s]; [discriminate|].
    destruct (class_matches icase cc c); [|discriminate].
    exists s, caps. split; [apply suffix_cons_r; reflexivity|exact Hr].
  - exists s, caps. split; [reflexivity|exact Hr].
  - apply IH1 in Hr as (s1 & caps1 & Hs1 & Hr).
    apply IH2 in Hr as (s2 & caps2 & Hs2 & Hr).
    exists s2, caps2. split; [etransitivity; eassumption|exact Hr].
  - destruct (run icase r1 s caps k) as [y|] eqn:H1.
    + injection Hr as ->. apply (IH1 _ _ _ _ H1).
    + apply (IH2 _ _ _ _ Hr).
  - destruct (run icase r1 s caps k) as [y|] eqn:H1.
    + injection Hr as ->. apply (IH1 _ _ _ _ H1).
    + exists s, caps. split; [reflexivity|exact Hr].
  - apply star_match_inv in Hr as (a & b & -> & _ & Hk).
    exists b, caps. split; [apply suffix_app_r; reflexivity|exact Hk].
  - apply IH1 in Hr as (s1 & caps1 & Hs1 & Hr).
    exists s1, (caps1 ++ [take (length s - length s1) s]).
    split; [exact Hs1|exact Hr].
Qed.

(** A pattern that starts with a character takes at least that one. *)
Lemma run_chr_seq_shorter (cc : charclass) (r : regex) (s : text)
    (caps caps' : list text) (rest : text) :
  run false (Seq (Chr cc) r) s caps (fun rest' caps'' => Some (caps'', rest'))
  = Some (caps', rest) ->
  (length rest < length s)%nat.
Proof.
  cbn [run]. destruct s as [|c s]; [discriminate|].
  destruct (class_matches false cc c); [|discriminate]. intros Hr.
  apply run_rest_suffix in Hr as (s' & caps'' & Hs & [= _ ->]).
  apply suffix_length in Hs. cbn [length]. lia.
Qed.

Lemma cleared_line_match_shorter (s : text) (caps : list text) (rest : text) :
  re_match false cleared_line_parser s = Some (caps, rest) ->
  (length rest < length s)%nat.
Proof.
  rewrite cleared_line_unfold. intros Hr.
  apply star_match_inv in Hr as (a & b & -> & _ & Hk).
  apply run_chr_seq_shorter in Hk. rewrite length_app. lia.
Qed.

Lemma escape_parser_match_shorter (s : text) (caps : list text) (rest : text) :
  re_match false escape_parser s = Some (caps, rest) ->
  (length rest < length s)%nat.
Proof.
  unfold re_match, escape_parser. apply run_chr_seq_shorter.
Qed.

(** A scan that keeps the length of the text found no match in it. *)
Lemma sub_scan_same_length (r : regex) (s : text) :
  (forall s' caps rest, re_match false r s' = Some (caps, rest) ->
                        (length rest < length s')%nat) ->
  length (sub_scan false r 0 s) = length s ->
  forall s', s' `suffix_of` s -> re_match false r s' = None.
Proof.
  intros Hshorter. induction s as [|c s IH]; intros Hlen s' Hs.
  - apply suffix_nil_inv in Hs as ->.
    destruct (re_match false r []) as [[caps rest]|] eqn:Hm; [|reflexivity].
    apply Hshorter in Hm. cbn [length] in Hm. lia.
  - cbn [sub_scan] in Hlen.
    destruct (re_match false r (c :: s)) as [[caps rest]|] eqn:Hm.
    + pose proof (Hshorter _ _ _ Hm) as Hlt.
      destruct (length (c :: s) - length rest)%nat as [|n] eqn:Hd; [lia|].
      pose proof (sublist_length _ _ (sub_scan_sublist false r s n)) as Hle.
      cbn [length] in Hlen. lia.
    + cbn [length] in Hlen. injection Hlen as Hlen.
      destruct s' as [|c' s'].
      * destruct (re_match false r []) as [[caps rest]|] eqn:Hm'; [|reflexivity].
        apply Hshorter in Hm'. cbn [length] in Hm'. lia.
      * apply suffix_cons_inv in Hs as [[= -> ->]|Hs]; [exact Hm|].
        apply (IH Hlen _ Hs).
Qed.

(** C4, amended: a second pass of the filter changes nothing exactly when
    the filtered text holds no sequence that the filter removes, that is,
    when neither pattern matches at any position of it. *)
Theorem handle_escape_codes_idempotent_iff (x : text) :
  handle_escape_codes (handle_escape_codes x) = handle_escape_codes x
  <-> forall s', s' `suffix_of` handle_escape_codes x ->
                 re_match false cleared_line_parser s' = None
                 /\ re_match false escape_parser s' = None.
Proof.
  generalize (handle_escape_codes x). intros y.
  unfold handle_escape_codes, re_sub_empty. split.
  - intros Hfix.
    pose proof (sublist_length _ _ (sub_scan_sublist false cleared_line_parser y 0))
      as Hle1.
    pose proof (sublist_length _ _
                  (sub_scan_sublist false escape_parser
                     (sub_scan false cleared_line_parser 0 y) 0)) as Hle2.
    rewrite Hfix in Hle2.
    assert (Hclear : forall s', s' `suffix_of` y ->
                       re_match false cleared_line_parser s' = None).
    { apply sub_scan_same_length; [apply cleared_line_match_shorter|lia]. }
    rewrite (sub_scan_no_match cleared_line_parser y Hclear) in Hfix.
    intros s' Hs. split; [apply Hclear, Hs|].
    apply (sub_scan_same_length escape_parser y);
      [apply escape_parser_match_shorter|congruence|exact Hs].
  - intros Hnone.
    rewrite (sub_scan_no_match cleared_line_parser y);
      [|intros s' Hs; apply Hnone, Hs].
    apply sub_scan_no_match. intros s' Hs. apply Hnone, Hs.
Qed.

End SecondPass.

(** The ends of a text, one by one. *)
Lemma suffix_cons_cases {A} (t l : list A) (c : A) :
  t `suffix_of` c :: l -> t = c :: l \/ t `suffix_of` l.
Proof.
  destruct t as [|c' t]; [right; apply suffix_nil|].
  intros Hs. apply suffix_cons_inv in Hs as [Hs|Hs]; [left|right]; exact Hs.
Qed.

Lemma handle_escape_codes_idempotent_iff_witness :
  handle_escape_codes (H := ascii_tables)
    (handle_escape_codes (H := ascii_tables) ([ESC] ++ str "[?25l"))
  = handle_escape_codes (H := ascii_tables) ([ESC] ++ str "[?25l")
  /\ ESC ∈ handle_escape_codes (H := ascii_tables) ([ESC] ++ str "[?25l").
Proof.
  split; [|by_evaluation].
  apply (proj2 (handle_escape_codes_idempotent_iff (H := ascii_tables)
                  ([ESC] ++ str "[?25l"))).
  intros s' Hs.
  change (handle_escape_codes ([ESC] ++ str "[?25l"))
    with ([ESC] ++ str "[?25l") in Hs.
  repeat (apply suffix_cons_cases in Hs as [->|Hs]; [split; reflexivity|]).
  apply suffix_nil_inv in Hs as ->. split; reflexivity.
Defined.
